(** * The host synchronization sweep of [lib/host_synchronize.py]

    A shallow embedding of [synchronize_hosts], [_should_synchronize] and
    [_staleness_timestamps].  The generator is modelled by the ordered list
    of the actions it performs on its collaborators (record store, event
    producer, metrics counter, interrupt callable) and of the outcomes it
    yields, together with the way it completes. *)

From stdpp Require Import base list strings gmap pretty.
From Stdlib Require Import ZArith Lia.

(** ** Data *)

(** Exceptions are identified by the name of their class. *)
Inductive exn := Exn (name : string).

(** [datetime.timedelta], as Python stores it. *)
Record timedelta := mk_timedelta {
  td_days : Z;
  td_seconds : Z;
  td_microseconds : Z
}.

(** [timedelta(days=n)].  Python refuses [|n| > 999999999]; the module only
    ever passes its two small constants. *)
Definition timedelta_of_days (n : Z) : timedelta := mk_timedelta n 0 0.

Definition total_microseconds (d : timedelta) : Z :=
  ((td_days d * 86400 + td_seconds d) * 1000000 + td_microseconds d)%Z.

(** A host as the sweep sees it: its identifier, its canonical facts and the
    [expired] flag of its SQLAlchemy instance state. *)
Record Host := mk_Host {
  id : N;
  canonical_facts : gmap string string;
  expired : bool
}.

(** Modelled from the spec: [app.queue.events.EventType] is not among the
    sources; the sweep builds "updated" events only. *)
Inductive EventType := created | updated | delete.

(** Modelled from the spec: [app.queue.event_producer.Topic] is not among
    the sources; the sweep writes to the events topic only. *)
Inductive Topic := egress | events.

(** Modelled from the spec: [app.queue.event_producer] is not among the
    sources.  [write_event(..., wait=True)] returns once the sink has
    acknowledged the event, or returns after logging a failed delivery (the
    comment at the call site), or raises. *)
Inductive sink_reply :=
| Acknowledged
| FailureLogged
| SinkRaises (e : exn).

Definition WARN_DAYS_AFTER : Z := 7.
Definition DELETE_DAYS_AFTER : Z := 14.

(** ** The staleness policy *)

Module culling.

(** Modelled from the spec: [app/culling.py], from which the module imports
    [_Config] and [Timestamps], is not among the sources.  The policy is the
    pair of durations [warn_after] and [cull_after]; a pair with a negative
    duration is malformed and rejected; the timestamp set is a pure function
    of the decision time, both members being that time plus the offset.
    Instants are counted in microseconds, the resolution of [datetime]. *)
Record _Config := mk_Config {
  stale_warning_offset_delta : timedelta;
  culled_offset_delta : timedelta
}.

(** Modelled from the spec: the constructor of the policy, which rejects a
    malformed pair of durations. *)
Definition CullingConfig (stale_warning_offset_delta culled_offset_delta : timedelta)
    : exn + _Config :=
  if ((total_microseconds stale_warning_offset_delta <? 0) ||
      (total_microseconds culled_offset_delta <? 0))%Z
  then inl (Exn "ValueError")
  else inr (mk_Config stale_warning_offset_delta culled_offset_delta).

(** Modelled from the spec: [Timestamps(config)] holds the policy. *)
Record Timestamps := mk_Timestamps { config : _Config }.

(** Modelled from the spec: the staleness timestamp set
    [{stale_warning_at, culled_at}]. *)
Record staleness_set := mk_staleness_set {
  stale_warning_at : Z;
  culled_at : Z
}.

(** Modelled from the spec: both instants are [now] plus the offset. *)
Definition staleness_at (ts : Timestamps) (now : Z) : staleness_set :=
  {| stale_warning_at :=
       now + total_microseconds (stale_warning_offset_delta (config ts));
     culled_at :=
       now + total_microseconds (culled_offset_delta (config ts)) |}%Z.

End culling.

Definition microseconds_of_days (n : Z) : Z := (n * 86400 * 1000000)%Z.

(** ** Collaborators for the examples *)

Module Scenario.

Definition live (i : N) : Host := mk_Host i ∅ false.
Definition gone (i : N) : Host := mk_Host i ∅ true.
Definition registered (i : N) (insights_id : string) : Host :=
  mk_Host i {[ "insights_id"%string := insights_id ]} false.

Definition five_hosts : list Host :=
  [registered 1 "6f1e"; live 2; gone 3; live 4; live 5].

Definition static (hosts : list Host) (q : nat) : exn + list Host := inr hosts.

(** A store that becomes unavailable at its query number [n]. *)
Definition failing_at (n : nat) (hosts : list Host) (q : nat)
    : exn + list Host :=
  if (q =? n)%nat then inl (Exn "OperationalError") else inr hosts.

Definition egress_fields : list string :=
  ["id"; "insights_id"; "stale_warning_timestamp"; "culled_timestamp"]%string.

Definition plain_serialize (host : Host) (timestamps : culling.Timestamps)
    (fields : list string) : string :=
  ("host " +:+ pretty (id host))%string.

Definition plain_event (event_type : EventType) (payload : string) : string :=
  ("updated " +:+ payload)%string.

Definition plain_headers (event_type : EventType)
    (insights_id : option string) : option string := insights_id.

Definition sink : Type :=
  nat -> string -> string -> option string -> Topic -> bool -> sink_reply.

Definition acknowledging : sink := fun _ _ _ _ _ _ => Acknowledged.
Definition logging_failures : sink := fun _ _ _ _ _ _ => FailureLogged.

Definition never (p : nat) : bool := false.
Definition always (p : nat) : bool := true.
Definition from_poll (k p : nat) : bool := (k <=? p)%nat.

(** A store from which the first record is deleted by another process
    after its query number 2. *)
Definition shrinking (hosts : list Host) (q : nat) : exn + list Host :=
  if (q <=? 2)%nat then inr hosts else inr (drop 1 hosts).

(** A policy source that is not ready. *)
Definition unready (warn cull : timedelta) : exn + culling._Config :=
  inl (Exn "RuntimeError").

Definition the_policy : culling._Config :=
  culling.mk_Config (timedelta_of_days 7) (timedelta_of_days 14).

End Scenario.

(** ** Generators as action traces *)

(** The collaborators answer by call number: the store may change between
    two queries and may fail, the producer may fail on any dispatch, the
    interrupt callable may change its mind. *)
Record World := mk_World {
  queries : nat;
  dispatches : nat;
  polls : nat;
  synchronize_host_count : nat
}.

Definition world0 : World := mk_World 0 0 0 0.

Inductive completion (A : Type) :=
| Returned (a : A)
| Raised (e : exn)
| OutOfFuel.
Arguments Returned {A} a.
Arguments Raised {A} e.
Arguments OutOfFuel {A}.

Section Sweep.

(** The names the module imports.  [CullingConfig] and [Timestamps] come
    from [app.culling]; the serializer, the event builder and the header
    builder are pure collaborators. *)
Variables Config TS Serialized Headers : Type.
Variable CullingConfig : timedelta -> timedelta -> exn + Config.
Variable Timestamps : Config -> TS.
Variable EGRESS_HOST_FIELDS : list string.
Variable serialize_host : Host -> TS -> list string -> Serialized.
Variable build_event : EventType -> Serialized -> string.
Variable message_headers : EventType -> option string -> Headers.
Variable str : Serialized -> string.

(** Everything the generator does that an observer can see, in order. *)
Inductive action :=
| ACount (r : exn + nat)
| APrint (s : string)
| AChunkCount (offset limit : nat) (r : exn + nat)
| AChunkRead (offset limit : nat) (r : exn + list Host)
| ALiveness (host_id : N) (live : bool)
| AStaleness (r : option exn)
| AWrite (event key : string) (headers : Headers) (topic : Topic)
         (wait : bool) (r : sink_reply)
| AInc
| AYield (host_id : N) (sync_up : bool)
| AInterrupt (stop : bool).

Definition Gen (A : Type) : Type := World -> list action * World * completion A.

Definition ret {A} (a : A) : Gen A := fun w => ([], w, Returned a).

Definition bind {A B} (m : Gen A) (k : A -> Gen B) : Gen B := fun w =>
  match m w with
  | (t1, w1, Returned a) =>
      match k a w1 with (t2, w2, r) => (t1 ++ t2, w2, r) end
  | (t1, w1, Raised e) => (t1, w1, Raised e)
  | (t1, w1, OutOfFuel) => (t1, w1, OutOfFuel)
  end.

Definition emit (a : action) : Gen unit := fun w => ([a], w, Returned tt).

(** [Gen] is a monad in stdpp's sense, which gives the [x ← m; k]
    notation. *)
#[local] Instance Gen_ret : MRet Gen := @ret.
#[local] Instance Gen_bind : MBind Gen := fun A B k m => bind m k.

(** *** The collaborators' calls *)

Definition next_query (w : World) : World :=
  mk_World (S (queries w)) (dispatches w) (polls w) (synchronize_host_count w).
Definition next_dispatch (w : World) : World :=
  mk_World (queries w) (S (dispatches w)) (polls w) (synchronize_host_count w).
Definition next_poll (w : World) : World :=
  mk_World (queries w) (dispatches w) (S (polls w)) (synchronize_host_count w).
Definition counted (w : World) : World :=
  mk_World (queries w) (dispatches w) (polls w) (S (synchronize_host_count w)).

Section Run.

(** The arguments of [synchronize_hosts]. *)
Variable select_query : nat -> exn + list Host.
Variable event_producer :
  nat -> string -> string -> Headers -> Topic -> bool -> sink_reply.
Variable chunk_size : nat.
Variable interrupt : nat -> bool.

(** [select_query.count()] *)
Definition count : Gen nat := fun w =>
  match select_query (queries w) with
  | inr rows => ([ACount (inr (length rows))], next_query w,
                 Returned (length rows))
  | inl e => ([ACount (inl e)], next_query w, Raised e)
  end.

(** [select_query.offset(start).limit(chunk_size)] over the rows the
    store holds when the query runs. *)
Definition window (start limit : nat) (rows : list Host) : list Host :=
  take limit (drop start rows).

(** [select_query.offset(start).limit(chunk_size).count()] *)
Definition chunk_count (start limit : nat) : Gen nat := fun w =>
  match select_query (queries w) with
  | inr rows =>
      let n := length (window start limit rows) in
      ([AChunkCount start limit (inr n)], next_query w, Returned n)
  | inl e => ([AChunkCount start limit (inl e)], next_query w, Raised e)
  end.

(** Iterating [select_query.offset(start).limit(chunk_size)]. *)
Definition chunk_read (start limit : nat) : Gen (list Host) := fun w =>
  match select_query (queries w) with
  | inr rows =>
      let hosts := window start limit rows in
      ([AChunkRead start limit (inr hosts)], next_query w, Returned hosts)
  | inl e => ([AChunkRead start limit (inl e)], next_query w, Raised e)
  end.

(** [event_producer.write_event(event, key, headers, topic, wait=wait)] *)
Definition write_event (event key : string) (headers : Headers)
    (topic : Topic) (wait : bool) : Gen unit := fun w =>
  let r := event_producer (dispatches w) event key headers topic wait in
  ([AWrite event key headers topic wait r], next_dispatch w,
   match r with
   | SinkRaises e => Raised e
   | _ => Returned tt
   end).

(** [synchronize_host_count.inc()] *)
Definition inc : Gen unit := fun w => ([AInc], counted w, Returned tt).

(** [interrupt()] *)
Definition poll_interrupt : Gen bool := fun w =>
  let b := interrupt (polls w) in
  ([AInterrupt b], next_poll w, Returned b).

Definition print (s : string) : Gen unit := emit (APrint s).

Definition yield (host_id : N) (sync_up : bool) : Gen unit :=
  emit (AYield host_id sync_up).

(** *** The module's functions *)

Definition _should_synchronize (host : Host) : Gen bool :=
  let live := negb (expired host) in
  emit (ALiveness (id host) live);; mret live.

Definition _staleness_timestamps : Gen TS := fun w =>
  match CullingConfig (timedelta_of_days WARN_DAYS_AFTER)
                      (timedelta_of_days DELETE_DAYS_AFTER) with
  | inr cullingConfig =>
      ([AStaleness None], w, Returned (Timestamps cullingConfig))
  | inl e => ([AStaleness (Some e)], w, Raised e)
  end.

(** The body of [for host in host_list]. *)
Definition sync_host (host : Host) : Gen unit :=
  sync_up ← _should_synchronize host;
  (if sync_up : bool then
     timestamps ← _staleness_timestamps;
     let serialized_host :=
       serialize_host host timestamps EGRESS_HOST_FIELDS in
     let event := build_event updated serialized_host in
     let insights_id := canonical_facts host !! "insights_id"%string in
     let headers := message_headers updated insights_id in
     write_event event (str serialized_host) headers events true;;
     inc
   else mret tt);;
  yield (id host) sync_up.

Fixpoint for_hosts (host_list : list Host) : Gen unit :=
  match host_list with
  | [] => mret tt
  | host :: rest => sync_host host;; for_hosts rest
  end.

(** The [while] loop; [fuel] bounds the number of iterations. *)
Fixpoint sweep (fuel : nat) (start : nat) : Gen unit :=
  match fuel with
  | 0 => fun w => ([], w, OutOfFuel)
  | S fuel' =>
      n ← chunk_count start chunk_size;
      if (n =? 0)%nat then mret tt
      else
        host_list ← chunk_read start chunk_size;
        for_hosts host_list;;
        let start := start + chunk_size in
        stop ← poll_interrupt;
        if stop : bool then mret tt else sweep fuel' start
  end.

Definition synchronize_hosts (fuel : nat) : Gen unit :=
  total ← count;
  print ("Total number: " +:+ pretty total)%string;;
  sweep fuel 0.

End Run.

(** ** What a trace shows *)

(** The outcomes the generator yielded, in order. *)
Definition outcomes (tr : list action) : list (N * bool) :=
  omap (fun a => match a with
                 | AYield host_id sync_up => Some (host_id, sync_up)
                 | _ => None
                 end) tr.

(** The records the loop body was entered for, in order. *)
Definition visited (tr : list action) : list N :=
  omap (fun a => match a with
                 | ALiveness host_id _ => Some host_id
                 | _ => None
                 end) tr.

(** The replies of the producer to the dispatches, in order. *)
Definition sink_replies (tr : list action) : list sink_reply :=
  omap (fun a => match a with
                 | AWrite _ _ _ _ _ r => Some r
                 | _ => None
                 end) tr.

Definition acknowledged (r : sink_reply) : bool :=
  match r with Acknowledged => true | _ => false end.

Definition returned_normally (r : sink_reply) : bool :=
  match r with SinkRaises _ => false | _ => true end.

Definition count_where {A} (p : A -> bool) (l : list A) : nat :=
  length (List.filter p l).

Definition increments (tr : list action) : nat :=
  count_where (fun a => match a with AInc => true | _ => false end) tr.

Definition store_failure (a : action) : option exn :=
  match a with
  | ACount (inl e) | AChunkCount _ _ (inl e) | AChunkRead _ _ (inl e) => Some e
  | _ => None
  end.

(** The per-record part of a trace: everything but the store queries, the
    print and the interrupt polls. *)
Definition record_level (a : action) : bool :=
  match a with
  | ALiveness _ _ | AStaleness _ | AWrite _ _ _ _ _ _ | AInc | AYield _ _ => true
  | _ => false
  end.

Definition record_actions (tr : list action) : list action :=
  List.filter record_level tr.

(** What the consumer has made the generator do after [pulls] calls of
    [next]: nothing before the first call, and each call runs the body up
    to and including the next [yield]. *)
Fixpoint performed (pulls : nat) (tr : list action) : list action :=
  match tr with
  | [] => []
  | a :: rest =>
      match pulls with
      | 0 => []
      | S n =>
          a :: performed (match a with AYield _ _ => n | _ => S n end) rest
      end
  end.

(** ** The sweep over well-behaved collaborators, in closed form *)

Definition outcome_of (host : Host) : N * bool :=
  (id host, negb (expired host)).

Definition policy : exn + Config :=
  CullingConfig (timedelta_of_days WARN_DAYS_AFTER)
                (timedelta_of_days DELETE_DAYS_AFTER).

Section Closed_form.

Variable event_producer :
  nat -> string -> string -> Headers -> Topic -> bool -> sink_reply.
Variable cullingConfig : Config.

Definition serialized (host : Host) : Serialized :=
  serialize_host host (Timestamps cullingConfig) EGRESS_HOST_FIELDS.

(** What the producer answers to the dispatch of [host] when it is the
    dispatch number [d]. *)
Definition reply_at (d : nat) (host : Host) : sink_reply :=
  event_producer d (build_event updated (serialized host))
    (str (serialized host))
    (message_headers updated (canonical_facts host !! "insights_id"%string))
    events true.

Definition dispatch (host : Host) (r : sink_reply) : action :=
  AWrite (build_event updated (serialized host)) (str (serialized host))
    (message_headers updated (canonical_facts host !! "insights_id"%string))
    events true r.

Definition host_actions (d : nat) (host : Host) : list action :=
  if expired host
  then [ALiveness (id host) false; AYield (id host) false]
  else [ALiveness (id host) true; AStaleness None;
        dispatch host (reply_at d host); AInc; AYield (id host) true].

Fixpoint chunk_actions (d : nat) (hosts : list Host) : list action :=
  match hosts with
  | [] => []
  | host :: rest =>
      host_actions d host ++
      chunk_actions (if expired host then d else S d) rest
  end.

End Closed_form.

Definition live_count (hosts : list Host) : nat :=
  count_where (fun host => negb (expired host)) hosts.

Definition advance (n : nat) (w : World) : World :=
  mk_World (queries w) (dispatches w + n) (polls w)
           (synchronize_host_count w + n).

Definition sink_returns
    (event_producer :
       nat -> string -> string -> Headers -> Topic -> bool -> sink_reply) : Prop :=
  forall d event key headers topic wait,
    returned_normally (event_producer d event key headers topic wait) = true.

(** ** The records a run reads *)

Definition rows_at (select_query : nat -> exn + list Host) (q : nat)
    : list Host :=
  match select_query q with inr rows => rows | inl _ => [] end.

(** The store answers every query. *)
Definition store_available (select_query : nat -> exn + list Host) : Prop :=
  forall q, select_query q = inr (rows_at select_query q).

(** The records read by the loop when it starts at offset [start] with the
    store at its query number [q] and the interrupt at its poll number [p],
    and whether the loop came to its end within [fuel] iterations. *)
Fixpoint swept (select_query : nat -> exn + list Host) (chunk_size : nat)
    (interrupt : nat -> bool) (fuel q p start : nat) : list Host * bool :=
  match fuel with
  | 0 => ([], false)
  | S fuel' =>
      match window start chunk_size (rows_at select_query q) with
      | [] => ([], true)
      | _ :: _ =>
          let chunk := window start chunk_size (rows_at select_query (S q)) in
          if interrupt p then (chunk, true)
          else
            let rest :=
              swept select_query chunk_size interrupt fuel' (S (S q)) (S p)
                (start + chunk_size) in
            (chunk ++ fst rest, snd rest)
      end
  end.

(** The first [n] chunks as the loop reads them, and the condition that the
    loop finds each of them non-empty when it counts it. *)
Fixpoint chunks_read (select_query : nat -> exn + list Host)
    (chunk_size q start n : nat) : list Host :=
  match n with
  | 0 => []
  | S n' =>
      window start chunk_size (rows_at select_query (S q)) ++
      chunks_read select_query chunk_size (S (S q)) (start + chunk_size) n'
  end.

Fixpoint chunks_found (select_query : nat -> exn + list Host)
    (chunk_size q start n : nat) : Prop :=
  match n with
  | 0 => True
  | S n' =>
      window start chunk_size (rows_at select_query q) <> [] /\
      chunks_found select_query chunk_size (S (S q)) (start + chunk_size) n'
  end.

(** ** Properties of runs *)

(** A property [P] of runs is respected by a computation when it holds of
    every run of it: the world before, the trace, the world after and the
    way the run ended. *)
Definition ending {A} (c : completion A) : completion unit :=
  match c with
  | Returned _ => Returned tt
  | Raised e => Raised e
  | OutOfFuel => OutOfFuel
  end.

Definition respects (P : World -> list action -> World -> completion unit -> Prop)
    {A} (m : Gen A) : Prop :=
  forall w tr w' c, m w = (tr, w', c) -> P w tr w' (ending c).

(** The counter against the dispatches and the outcomes of a run. *)
Definition counter_faithful (w : World) (tr : list action) (w' : World)
    (c : completion unit) : Prop :=
  increments tr = count_where returned_normally (sink_replies tr) /\
  increments tr = count_where snd (outcomes tr) /\
  synchronize_host_count w' = synchronize_host_count w + increments tr.

(** The counter counting acknowledgments only, as the specification words
    it. *)
Definition incremented_per_acknowledgment (tr : list action) : Prop :=
  increments tr = count_where acknowledged (sink_replies tr).

(** A run in which no store query failed, and one that ended on a failed
    store query. *)
Definition store_ok (tr : list action) : Prop :=
  Forall (fun a => store_failure a = None) tr.

Definition aborted_by_store (tr : list action) (c : completion unit) : Prop :=
  exists pre a e,
    tr = pre ++ [a] /\ store_failure a = Some e /\ c = Raised e /\ store_ok pre.

Definition store_disciplined (w : World) (tr : list action) (w' : World)
    (c : completion unit) : Prop :=
  store_ok tr \/ aborted_by_store tr c.

(** What the loop body does over a chunk when the policy is rejected with
    [e]: expired records are skipped as usual, the first live one raises. *)
Fixpoint rejected_actions (e : exn) (hosts : list Host) : list action :=
  match hosts with
  | [] => []
  | host :: rest =>
      if expired host
      then [ALiveness (id host) false; AYield (id host) false] ++
           rejected_actions e rest
      else [ALiveness (id host) true; AStaleness (Some e)]
  end.

Definition rejected_completion (e : exn) (hosts : list Host) : completion unit :=
  if forallb expired hosts then Returned tt else Raised e.

(** An eager rejection, as the specification words it: the rejection comes
    before any chunk is counted or read and before any record is looked
    at. *)
Fixpoint rejected_at_construction (tr : list action) : bool :=
  match tr with
  | [] => true
  | AStaleness (Some _) :: _ => true
  | AChunkCount _ _ _ :: _ | AChunkRead _ _ _ :: _ | ALiveness _ _ :: _ => false
  | _ :: rest => rejected_at_construction rest
  end.

(** ** Lemmas on one record *)

Ltac run_gen :=
  simpl;
  unfold mbind, mret, Gen_bind, Gen_ret, bind, ret, emit, yield, print; simpl.

Lemma sync_host_expired event_producer host w :
  expired host = true ->
  sync_host event_producer host w =
    ([ALiveness (id host) false; AYield (id host) false], w, Returned tt).
Proof.
  intros Hexp. unfold sync_host, _should_synchronize. rewrite Hexp.
  reflexivity.
Qed.

Lemma sync_host_rejected event_producer host w e :
  expired host = false -> policy = inl e ->
  sync_host event_producer host w =
    ([ALiveness (id host) true; AStaleness (Some e)], w, Raised e).
Proof.
  intros Hlive Hpol. unfold sync_host, _should_synchronize, _staleness_timestamps.
  fold policy. rewrite Hlive, Hpol. reflexivity.
Qed.

Lemma sync_host_live event_producer host w cfg :
  expired host = false -> policy = inr cfg ->
  sync_host event_producer host w =
    match reply_at event_producer cfg (dispatches w) host with
    | SinkRaises e =>
        ([ALiveness (id host) true; AStaleness None;
          dispatch cfg host (SinkRaises e)], next_dispatch w, Raised e)
    | r =>
        ([ALiveness (id host) true; AStaleness None; dispatch cfg host r;
          AInc; AYield (id host) true], counted (next_dispatch w), Returned tt)
    end.
Proof.
  intros Hlive Hpol.
  unfold sync_host, _should_synchronize, _staleness_timestamps, write_event.
  fold policy. rewrite Hlive, Hpol. run_gen.
  unfold reply_at, dispatch, serialized.
  destruct (event_producer _ _ _ _ _ _); reflexivity.
Qed.

(** ** Lemmas on the monad *)

Lemma bind_Returned {A B} (m : Gen A) (k : A -> Gen B) w t1 w1 a :
  m w = (t1, w1, Returned a) ->
  (m ≫= k) w = match k a w1 with (t2, w2, r) => (t1 ++ t2, w2, r) end.
Proof. intros Hm. unfold mbind, Gen_bind, bind. rewrite Hm. reflexivity. Qed.

Lemma bind_Raised {A B} (m : Gen A) (k : A -> Gen B) w t1 w1 e :
  m w = (t1, w1, Raised e) -> (m ≫= k) w = (t1, w1, Raised e).
Proof. intros Hm. unfold mbind, Gen_bind, bind. rewrite Hm. reflexivity. Qed.

(** ** Lemmas on one chunk *)

Lemma for_hosts_cons event_producer host rest :
  for_hosts event_producer (host :: rest) =
    (sync_host event_producer host ≫= fun _ => for_hosts event_producer rest).
Proof. reflexivity. Qed.

Lemma for_hosts_run event_producer cfg hosts :
  sink_returns event_producer -> policy = inr cfg ->
  forall w,
    for_hosts event_producer hosts w =
      (chunk_actions event_producer cfg (dispatches w) hosts,
       advance (live_count hosts) w, Returned tt).
Proof.
  intros Hsink Hpol. induction hosts as [|host rest IH]; intros w.
  - destruct w. unfold advance, live_count, count_where. run_gen.
    repeat f_equal; lia.
  - rewrite for_hosts_cons. destruct (expired host) eqn:Hexp.
    + rewrite (bind_Returned _ _ _ _ _ _ (sync_host_expired _ _ _ Hexp)).
      rewrite IH. simpl. unfold host_actions, live_count, count_where.
      simpl. rewrite Hexp. reflexivity.
    + pose proof (sync_host_live event_producer host w cfg Hexp Hpol) as Hrun.
      pose proof (Hsink (dispatches w)
        (build_event updated (serialized cfg host)) (str (serialized cfg host))
        (message_headers updated (canonical_facts host !! "insights_id"%string))
        events true) as Hret.
      fold (reply_at event_producer cfg (dispatches w) host) in Hret.
      assert (sync_host event_producer host w =
        ([ALiveness (id host) true; AStaleness None;
          dispatch cfg host (reply_at event_producer cfg (dispatches w) host);
          AInc; AYield (id host) true], counted (next_dispatch w), Returned tt))
        as Hrun'.
      { rewrite Hrun.
        destruct (reply_at event_producer cfg (dispatches w) host);
          [reflexivity | reflexivity | discriminate]. }
      rewrite (bind_Returned _ _ _ _ _ _ Hrun'). rewrite IH.
      simpl. unfold host_actions, live_count, count_where. simpl.
      rewrite Hexp. simpl. unfold advance. simpl. repeat f_equal; lia.
Qed.

(** ** Lemmas on the projections *)

Lemma record_actions_app t1 t2 :
  record_actions (t1 ++ t2) = record_actions t1 ++ record_actions t2.
Proof. apply List.filter_app. Qed.

Lemma outcomes_app t1 t2 : outcomes (t1 ++ t2) = outcomes t1 ++ outcomes t2.
Proof. apply omap_app. Qed.

Lemma visited_app t1 t2 : visited (t1 ++ t2) = visited t1 ++ visited t2.
Proof. apply omap_app. Qed.

Lemma sink_replies_app t1 t2 :
  sink_replies (t1 ++ t2) = sink_replies t1 ++ sink_replies t2.
Proof. apply omap_app. Qed.

Lemma count_where_app {A} (p : A -> bool) l1 l2 :
  count_where p (l1 ++ l2) = count_where p l1 + count_where p l2.
Proof. unfold count_where. rewrite List.filter_app. apply length_app. Qed.

Lemma increments_app t1 t2 :
  increments (t1 ++ t2) = increments t1 + increments t2.
Proof. apply count_where_app. Qed.

Lemma outcomes_record_actions tr : outcomes (record_actions tr) = outcomes tr.
Proof.
  induction tr as [|a tr IH]; [reflexivity|].
  destruct a; simpl; try apply IH. unfold outcomes in *. simpl. now f_equal.
Qed.

Lemma visited_record_actions tr : visited (record_actions tr) = visited tr.
Proof.
  induction tr as [|a tr IH]; [reflexivity|].
  destruct a; simpl; try apply IH. unfold visited in *. simpl. now f_equal.
Qed.

Lemma chunk_actions_app event_producer cfg l1 l2 d :
  chunk_actions event_producer cfg d (l1 ++ l2) =
    chunk_actions event_producer cfg d l1 ++
    chunk_actions event_producer cfg (d + live_count l1) l2.
Proof.
  revert d. induction l1 as [|host rest IH]; intros d; simpl.
  - f_equal. unfold live_count, count_where. simpl. lia.
  - rewrite IH, <- app_assoc. do 3 f_equal.
    unfold live_count, count_where. simpl.
    destruct (expired host); simpl; lia.
Qed.

Lemma record_actions_chunk event_producer cfg hosts d :
  record_actions (chunk_actions event_producer cfg d hosts) =
    chunk_actions event_producer cfg d hosts.
Proof.
  revert d. induction hosts as [|host rest IH]; intros d; [reflexivity|].
  simpl. rewrite record_actions_app, IH. f_equal.
  unfold host_actions. destruct (expired host); reflexivity.
Qed.

Lemma outcomes_chunk event_producer cfg hosts d :
  outcomes (chunk_actions event_producer cfg d hosts) = map outcome_of hosts.
Proof.
  revert d. induction hosts as [|host rest IH]; intros d; [reflexivity|].
  simpl. rewrite outcomes_app, IH. unfold host_actions, outcome_of.
  destruct (expired host); reflexivity.
Qed.

Lemma visited_chunk event_producer cfg hosts d :
  visited (chunk_actions event_producer cfg d hosts) = map id hosts.
Proof.
  revert d. induction hosts as [|host rest IH]; intros d; [reflexivity|].
  simpl. rewrite visited_app, IH. unfold host_actions.
  destruct (expired host); reflexivity.
Qed.

Lemma increments_chunk event_producer cfg hosts d :
  increments (chunk_actions event_producer cfg d hosts) = live_count hosts.
Proof.
  revert d. induction hosts as [|host rest IH]; intros d; [reflexivity|].
  simpl. rewrite increments_app, IH. unfold host_actions, live_count, count_where.
  simpl. destruct (expired host); reflexivity.
Qed.

Lemma sink_replies_chunk event_producer cfg hosts d :
  length (sink_replies (chunk_actions event_producer cfg d hosts)) =
    live_count hosts.
Proof.
  revert d. induction hosts as [|host rest IH]; intros d; [reflexivity|].
  simpl. rewrite sink_replies_app, length_app, IH.
  unfold host_actions, live_count, count_where. simpl.
  destruct (expired host); reflexivity.
Qed.

(** ** Lemmas on one iteration of the loop *)

Lemma sweep_S select_query event_producer chunk_size interrupt fuel start :
  sweep select_query event_producer chunk_size interrupt (S fuel) start =
    (chunk_count select_query start chunk_size ≫= fun n =>
     if (n =? 0)%nat then mret tt
     else
       chunk_read select_query start chunk_size ≫= fun host_list =>
       for_hosts event_producer host_list ≫= fun _ =>
       poll_interrupt interrupt ≫= fun stop : bool =>
       if stop then mret tt
       else sweep select_query event_producer chunk_size interrupt fuel
              (start + chunk_size)).
Proof. reflexivity. Qed.

(** The [while] condition is falsy: the loop ends. *)
Lemma sweep_end select_query event_producer chunk_size interrupt fuel start w rows :
  select_query (queries w) = inr rows ->
  window start chunk_size rows = [] ->
  sweep select_query event_producer chunk_size interrupt (S fuel) start w =
    ([AChunkCount start chunk_size (inr 0)], next_query w, Returned tt).
Proof.
  intros Hq Hwin. rewrite sweep_S.
  assert (chunk_count select_query start chunk_size w =
          ([AChunkCount start chunk_size (inr 0)], next_query w, Returned 0))
    as Hcount.
  { unfold chunk_count. rewrite Hq, Hwin. reflexivity. }
  rewrite (bind_Returned _ _ _ _ _ _ Hcount). reflexivity.
Qed.

(** One full iteration over producers that return and a policy that is
    accepted: the chunk is counted, read and processed, and only then is
    the interrupt polled. *)
Lemma sweep_step select_query event_producer chunk_size interrupt cfg
    fuel start w rows rows' :
  sink_returns event_producer -> policy = inr cfg ->
  select_query (queries w) = inr rows ->
  window start chunk_size rows <> [] ->
  select_query (S (queries w)) = inr rows' ->
  let chunk := window start chunk_size rows' in
  let w1 := next_poll (advance (live_count chunk) (next_query (next_query w))) in
  let stop := interrupt (polls w) in
  let tr :=
    [AChunkCount start chunk_size (inr (length (window start chunk_size rows)));
     AChunkRead start chunk_size (inr chunk)] ++
    chunk_actions event_producer cfg (dispatches w) chunk ++
    [AInterrupt stop] in
  sweep select_query event_producer chunk_size interrupt (S fuel) start w =
    if stop then (tr, w1, Returned tt)
    else
      match sweep select_query event_producer chunk_size interrupt fuel
              (start + chunk_size) w1 with
      | (t, w2, r) => (tr ++ t, w2, r)
      end.
Proof.
  intros Hsink Hpol Hq Hwin Hq' chunk w1 stop tr. rewrite sweep_S.
  assert (chunk_count select_query start chunk_size w =
          ([AChunkCount start chunk_size
              (inr (length (window start chunk_size rows)))],
           next_query w, Returned (length (window start chunk_size rows))))
    as Hcount.
  { unfold chunk_count. rewrite Hq. reflexivity. }
  rewrite (bind_Returned _ _ _ _ _ _ Hcount).
  destruct (length (window start chunk_size rows) =? 0)%nat eqn:Hlen.
  { apply Nat.eqb_eq, nil_length_inv in Hlen. contradiction. }
  assert (chunk_read select_query start chunk_size (next_query w) =
          ([AChunkRead start chunk_size (inr chunk)],
           next_query (next_query w), Returned chunk)) as Hread.
  { unfold chunk_read. simpl. rewrite Hq'. reflexivity. }
  rewrite (bind_Returned _ _ _ _ _ _ Hread).
  rewrite (bind_Returned _ _ _ _ _ _
             (for_hosts_run event_producer cfg chunk Hsink Hpol _)).
  assert (poll_interrupt interrupt
            (advance (live_count chunk) (next_query (next_query w))) =
          ([AInterrupt stop], w1, Returned stop)) as Hpoll.
  { reflexivity. }
  rewrite (bind_Returned _ _ _ _ _ _ Hpoll).
  destruct stop.
  - reflexivity.
  - destruct (sweep _ _ _ _ fuel _ w1) as [[t w2] r]. subst tr. simpl.
    rewrite <- !app_assoc. reflexivity.
Qed.

(** ** Windows *)

Lemma window_nil_of_drop start limit (rows : list Host) :
  drop start rows = [] -> window start limit rows = [].
Proof. intros H. unfold window. rewrite H. apply take_nil. Qed.

Lemma window_cons start limit (rows : list Host) :
  0 < limit -> drop start rows <> [] -> window start limit rows <> [].
Proof.
  intros Hpos Hne. unfold window. destruct limit as [|limit]; [lia|].
  destruct (drop start rows); [contradiction | discriminate].
Qed.

Lemma window_split start limit (rows : list Host) :
  window start limit rows ++ drop (start + limit) rows = drop start rows.
Proof. unfold window. rewrite <- drop_drop. apply take_drop. Qed.

(** ** The loop over a store that answers *)

(** With a store that answers, a producer that returns and an accepted
    policy, the loop processes the records of [swept], one after the other,
    and ends as [swept] says. *)
Lemma sweep_run select_query event_producer chunk_size interrupt cfg :
  store_available select_query ->
  sink_returns event_producer -> policy = inr cfg ->
  forall fuel start w,
    let reads :=
      swept select_query chunk_size interrupt fuel (queries w) (polls w) start in
    exists tr w',
      sweep select_query event_producer chunk_size interrupt fuel start w =
        (tr, w', if snd reads then Returned tt else OutOfFuel) /\
      record_actions tr =
        chunk_actions event_producer cfg (dispatches w) (fst reads) /\
      synchronize_host_count w' =
        synchronize_host_count w + live_count (fst reads).
Proof.
  intros Hstore Hsink Hpol.
  induction fuel as [|fuel IH]; intros start w; cbv zeta.
  - eexists _, _. split; [reflexivity|]. split; [reflexivity|].
    simpl. unfold live_count, count_where. simpl. lia.
  - simpl swept.
    destruct (window start chunk_size (rows_at select_query (queries w)))
      as [|host0 rest0] eqn:Hwin.
    + rewrite (sweep_end _ _ _ _ _ _ _ _ (Hstore _) Hwin).
      eexists _, _. split; [reflexivity|]. split; [reflexivity|].
      simpl. unfold live_count, count_where. simpl. lia.
    + assert (window start chunk_size (rows_at select_query (queries w)) <> [])
        as Hne by (rewrite Hwin; discriminate).
      pose proof (sweep_step select_query event_producer chunk_size interrupt
                    cfg fuel start w _ _ Hsink Hpol (Hstore _) Hne (Hstore _))
        as Hstep.
      cbv zeta in Hstep.
      set (chunk := window start chunk_size
                      (rows_at select_query (S (queries w)))) in *.
      set (w1 := next_poll (advance (live_count chunk)
                              (next_query (next_query w)))) in *.
      destruct (interrupt (polls w)).
      * rewrite Hstep. eexists _, _. split; [reflexivity|]. split.
        -- rewrite !record_actions_app, record_actions_chunk. simpl.
           apply app_nil_r.
        -- simpl. lia.
      * destruct (IH (start + chunk_size) w1) as (t & w2 & Hrun & Hrec & Hcnt).
        cbv zeta in Hrun, Hrec, Hcnt. rewrite Hrun in Hstep. rewrite Hstep.
        change (queries w1) with (S (S (queries w))) in *.
        change (polls w1) with (S (polls w)) in *.
        eexists _, _. split; [reflexivity|]. split.
        -- cbn [fst snd].
           rewrite !record_actions_app, record_actions_chunk, Hrec,
             chunk_actions_app. simpl. rewrite app_nil_r. reflexivity.
        -- cbn [fst snd]. rewrite Hcnt. simpl. unfold live_count.
           rewrite count_where_app. fold (live_count chunk). lia.
Qed.

(** *** What [swept] is for a static store and for an interrupted run *)

Lemma rows_at_static select_query hosts q :
  (forall q, select_query q = inr hosts) -> rows_at select_query q = hosts.
Proof. intros Hstatic. unfold rows_at. rewrite Hstatic. reflexivity. Qed.

Lemma store_available_static select_query hosts :
  (forall q, select_query q = inr hosts) -> store_available select_query.
Proof.
  intros Hstatic q. rewrite (rows_at_static _ hosts) by assumption.
  apply Hstatic.
Qed.

Lemma swept_static select_query chunk_size interrupt hosts :
  (forall q, select_query q = inr hosts) ->
  0 < chunk_size ->
  (forall p, interrupt p = false) ->
  forall fuel q p start,
    length (drop start hosts) < fuel ->
    swept select_query chunk_size interrupt fuel q p start =
      (drop start hosts, true).
Proof.
  intros Hstatic Hpos Hint.
  induction fuel as [|fuel IH]; intros q p start Hfuel; [lia|].
  simpl. rewrite !(rows_at_static _ hosts) by assumption.
  destruct (window start chunk_size hosts) as [|host0 rest0] eqn:Hwin.
  - destruct (drop start hosts) as [|host rest] eqn:Hdrop; [reflexivity|].
    exfalso. apply (window_cons start chunk_size hosts Hpos); [|exact Hwin].
    rewrite Hdrop. discriminate.
  - rewrite Hint, IH.
    + cbn [fst snd]. rewrite <- Hwin, window_split. reflexivity.
    + assert (length (drop start hosts) <> 0) as Hlen.
      { intros Hnil. apply nil_length_inv in Hnil.
        rewrite (window_nil_of_drop _ _ _ Hnil) in Hwin. discriminate. }
      rewrite length_drop in *. lia.
Qed.

Lemma swept_interrupted select_query chunk_size interrupt :
  forall k fuel q p start,
    (forall j, j < k -> interrupt (p + j) = false) ->
    interrupt (p + k) = true ->
    chunks_found select_query chunk_size q start (S k) ->
    k < fuel ->
    swept select_query chunk_size interrupt fuel q p start =
      (chunks_read select_query chunk_size q start (S k), true).
Proof.
  induction k as [|k IH]; intros fuel q p start Hbefore Hstop Hfound Hfuel;
    (destruct fuel as [|fuel]; [lia|]); destruct Hfound as [Hne Hfound];
    simpl swept;
    (destruct (window start chunk_size (rows_at select_query q));
       [contradiction|]).
  - rewrite Nat.add_0_r in Hstop. rewrite Hstop. simpl.
    rewrite app_nil_r. reflexivity.
  - assert (interrupt p = false) as Hgo.
    { rewrite <- (Nat.add_0_r p). apply Hbefore. lia. }
    rewrite Hgo, (IH fuel (S (S q)) (S p) (start + chunk_size)).
    + reflexivity.
    + intros j Hj. replace (S p + j) with (p + S j) by lia. apply Hbefore. lia.
    + replace (S p + k) with (p + S k) by lia. exact Hstop.
    + exact Hfound.
    + lia.
Qed.

Lemma chunks_read_static select_query chunk_size hosts :
  (forall q, select_query q = inr hosts) ->
  forall n q start,
    chunks_read select_query chunk_size q start n =
      take (n * chunk_size) (drop start hosts).
Proof.
  intros Hstatic. induction n as [|n IH]; intros q start; [reflexivity|].
  simpl. rewrite IH, (rows_at_static _ hosts) by assumption.
  unfold window. rewrite <- drop_drop. apply take_take_drop.
Qed.

Lemma chunks_found_static select_query chunk_size hosts :
  (forall q, select_query q = inr hosts) ->
  0 < chunk_size ->
  forall n q start,
    start + n * chunk_size < length hosts ->
    chunks_found select_query chunk_size q start (S n).
Proof.
  intros Hstatic Hpos. induction n as [|n IH]; intros q start Hlong.
  - split; [|exact I]. rewrite (rows_at_static _ hosts) by assumption.
    apply window_cons; [exact Hpos|]. intros Hnil.
    apply (f_equal length) in Hnil. rewrite length_drop in Hnil.
    simpl in Hnil. lia.
  - split.
    + rewrite (rows_at_static _ hosts) by assumption.
      apply window_cons; [exact Hpos|]. intros Hnil.
      apply (f_equal length) in Hnil. rewrite length_drop in Hnil.
      simpl in Hnil. lia.
    + apply IH. simpl in Hlong. lia.
Qed.

(** ** The generator as a whole *)

Lemma synchronize_hosts_run select_query event_producer chunk_size interrupt
    fuel w rows :
  select_query (queries w) = inr rows ->
  synchronize_hosts select_query event_producer chunk_size interrupt fuel w =
    match sweep select_query event_producer chunk_size interrupt fuel 0
            (next_query w) with
    | (t, w', r) =>
        ([ACount (inr (length rows));
          APrint ("Total number: " +:+ pretty (length rows))] ++ t, w', r)
    end.
Proof.
  intros Hq. unfold synchronize_hosts.
  assert (count select_query w =
          ([ACount (inr (length rows))], next_query w, Returned (length rows)))
    as Hcount.
  { unfold count. rewrite Hq. reflexivity. }
  rewrite (bind_Returned _ _ _ _ _ _ Hcount).
  unfold print, emit. unfold mbind at 1, Gen_bind, bind.
  destruct (sweep _ _ _ _ fuel 0 (next_query w)) as [[t w'] r].
  reflexivity.
Qed.

(** The whole generator over well-behaved collaborators. *)
Lemma synchronize_hosts_swept select_query event_producer chunk_size interrupt
    cfg fuel w :
  store_available select_query ->
  sink_returns event_producer -> policy = inr cfg ->
  let reads :=
    swept select_query chunk_size interrupt fuel (S (queries w)) (polls w) 0 in
  exists tr w',
    synchronize_hosts select_query event_producer chunk_size interrupt fuel w =
      (tr, w', if snd reads then Returned tt else OutOfFuel) /\
    record_actions tr =
      chunk_actions event_producer cfg (dispatches w) (fst reads).
Proof.
  intros Hstore Hsink Hpol reads.
  destruct (sweep_run select_query event_producer chunk_size interrupt cfg
              Hstore Hsink Hpol fuel 0 (next_query w))
    as (t & w' & Hrun & Hrec & _).
  cbv zeta in Hrun, Hrec.
  rewrite (synchronize_hosts_run _ _ _ _ _ _ _ (Hstore _)), Hrun.
  eexists _, _. split; [reflexivity|].
  rewrite record_actions_app. exact Hrec.
Qed.

Lemma performed_0 tr : performed 0 tr = [].
Proof. destruct tr; reflexivity. Qed.

Lemma performed_record_actions n tr :
  record_actions (performed n tr) = performed n (record_actions tr).
Proof.
  revert n. induction tr as [|a tr IH]; intros [|n]; try reflexivity.
  - simpl. destruct (record_level a); [reflexivity|].
    symmetry. apply performed_0.
  - destruct a; simpl; rewrite ?IH; reflexivity.
Qed.

Lemma performed_chunk event_producer cfg hosts n d :
  performed n (chunk_actions event_producer cfg d hosts) =
    chunk_actions event_producer cfg d (take n hosts).
Proof.
  revert n d. induction hosts as [|host rest IH]; intros [|n] d;
    try reflexivity.
  - simpl. unfold host_actions. destruct (expired host); reflexivity.
  - simpl. unfold host_actions.
    destruct (expired host); simpl; rewrite IH; reflexivity.
Qed.

(** ** Chunking completeness *)

(** C1.  Over a static store of N records and a chunk size C > 0, with a
    producer that returns, an accepted policy and no interruption, the
    generator returns after yielding exactly one outcome per record, every
    record being visited once and in selection order, whatever the relation
    of N to C. *)
Theorem synchronize_hosts_complete select_query event_producer chunk_size
    interrupt cfg hosts fuel w :
  (forall q, select_query q = inr hosts) ->
  0 < chunk_size ->
  sink_returns event_producer -> policy = inr cfg ->
  (forall p, interrupt p = false) ->
  length hosts < fuel ->
  exists tr w',
    synchronize_hosts select_query event_producer chunk_size interrupt fuel w =
      (tr, w', Returned tt) /\
    outcomes tr = map outcome_of hosts /\
    visited tr = map id hosts.
Proof.
  intros Hstatic Hpos Hsink Hpol Hint Hfuel.
  destruct (synchronize_hosts_swept select_query event_producer chunk_size
              interrupt cfg fuel w (store_available_static _ _ Hstatic)
              Hsink Hpol) as (tr & w' & Hrun & Hrec).
  rewrite (swept_static _ _ _ hosts Hstatic Hpos Hint) in Hrun, Hrec
    by exact Hfuel.
  exists tr, w'. split; [exact Hrun|].
  rewrite <- (outcomes_record_actions tr), <- (visited_record_actions tr), Hrec.
  simpl. rewrite outcomes_chunk, visited_chunk. split; reflexivity.
Qed.

(** ** Ordering *)


(** ** Cancellation *)

(** C5.  Chunks and polls are numbered from 0.  Whatever the store holds
    from one query to the next, if the loop finds the chunks 0 to [k] and
    the interrupt answers [True] for the first time at the poll that follows
    chunk [k], the generator returns normally, having visited and yielded
    every record of the chunks 0 to [k] as it read them, and nothing
    else. *)
Theorem synchronize_hosts_interrupted select_query event_producer chunk_size
    interrupt cfg k fuel w :
  store_available select_query ->
  sink_returns event_producer -> policy = inr cfg ->
  (forall j, j < k -> interrupt (polls w + j) = false) ->
  interrupt (polls w + k) = true ->
  chunks_found select_query chunk_size (S (queries w)) 0 (S k) ->
  k < fuel ->
  let chunks := chunks_read select_query chunk_size (S (queries w)) 0 (S k) in
  exists tr w',
    synchronize_hosts select_query event_producer chunk_size interrupt fuel w =
      (tr, w', Returned tt) /\
    outcomes tr = map outcome_of chunks /\
    visited tr = map id chunks.
Proof.
  intros Hstore Hsink Hpol Hbefore Hstop Hfound Hfuel chunks.
  destruct (synchronize_hosts_swept select_query event_producer chunk_size
              interrupt cfg fuel w Hstore Hsink Hpol)
    as (tr & w' & Hrun & Hrec).
  rewrite (swept_interrupted _ _ _ k fuel _ _ 0 Hbefore Hstop Hfound Hfuel)
    in Hrun, Hrec.
  exists tr, w'. split; [exact Hrun|].
  rewrite <- (outcomes_record_actions tr), <- (visited_record_actions tr), Hrec.
  cbn [fst]. rewrite outcomes_chunk, visited_chunk. split; reflexivity.
Qed.

(** Over a static store the chunks 0 to [k] are its first
    [(k + 1) * chunk_size] records. *)
Lemma static_sweep_interrupted select_query event_producer
    chunk_size interrupt cfg hosts k fuel w :
  (forall q, select_query q = inr hosts) ->
  0 < chunk_size ->
  sink_returns event_producer -> policy = inr cfg ->
  (forall j, j < k -> interrupt (polls w + j) = false) ->
  interrupt (polls w + k) = true ->
  k * chunk_size < length hosts ->
  k < fuel ->
  exists tr w',
    synchronize_hosts select_query event_producer chunk_size interrupt fuel w =
      (tr, w', Returned tt) /\
    outcomes tr = map outcome_of (take ((k + 1) * chunk_size) hosts) /\
    visited tr = map id (take ((k + 1) * chunk_size) hosts).
Proof.
  intros Hstatic Hpos Hsink Hpol Hbefore Hstop Hlong Hfuel.
  destruct (synchronize_hosts_swept select_query event_producer chunk_size
              interrupt cfg fuel w (store_available_static _ _ Hstatic)
              Hsink Hpol) as (tr & w' & Hrun & Hrec).
  rewrite (swept_interrupted _ _ _ k fuel _ _ 0 Hbefore Hstop
             (chunks_found_static _ _ _ Hstatic Hpos k _ 0 Hlong) Hfuel)
    in Hrun, Hrec.
  rewrite (chunks_read_static _ _ _ Hstatic) in Hrec.
  exists tr, w'. split; [exact Hrun|].
  rewrite <- (outcomes_record_actions tr), <- (visited_record_actions tr), Hrec.
  cbn [fst]. replace (S k) with (k + 1) by lia.
  rewrite outcomes_chunk, visited_chunk. split; reflexivity.
Qed.

(** C9.  An interrupt that answers [True] from the start does not prevent
    the first chunk of a non-empty store from being processed in full: its
    records are dispatched, counted and yielded, and the interrupt is
    polled for the first time after them. *)
Theorem synchronize_hosts_first_chunk select_query event_producer chunk_size
    interrupt cfg fuel w rows0 rows1 rows2 :
  select_query (queries w) = inr rows0 ->
  select_query (S (queries w)) = inr rows1 ->
  select_query (S (S (queries w))) = inr rows2 ->
  rows1 <> [] ->
  0 < chunk_size ->
  sink_returns event_producer -> policy = inr cfg ->
  (forall p, interrupt p = true) ->
  let chunk := take chunk_size rows2 in
  let tr :=
    [ACount (inr (length rows0));
     APrint ("Total number: " +:+ pretty (length rows0));
     AChunkCount 0 chunk_size (inr (length (take chunk_size rows1)));
     AChunkRead 0 chunk_size (inr chunk)] ++
    chunk_actions event_producer cfg (dispatches w) chunk ++
    [AInterrupt true] in
  synchronize_hosts select_query event_producer chunk_size interrupt
      (S fuel) w =
    (tr,
     next_poll (advance (live_count chunk)
                  (next_query (next_query (next_query w)))),
     Returned tt) /\
  outcomes tr = map outcome_of chunk /\
  increments tr = live_count chunk /\
  length (sink_replies tr) = live_count chunk.
Proof.
  intros Hq0 Hq1 Hq2 Hne Hpos Hsink Hpol Hint chunk tr.
  split.
  - rewrite (synchronize_hosts_run _ _ _ _ _ _ rows0 Hq0).
    pose proof (sweep_step select_query event_producer chunk_size interrupt
                  cfg fuel 0 (next_query w) rows1 rows2 Hsink Hpol Hq1
                  (window_cons 0 _ _ Hpos Hne) Hq2) as Hstep.
    cbv zeta in Hstep. rewrite Hint in Hstep. rewrite Hstep. reflexivity.
  - subst tr. rewrite outcomes_app, increments_app, sink_replies_app.
    rewrite outcomes_app, increments_app, sink_replies_app.
    rewrite outcomes_chunk, increments_chunk, !length_app, sink_replies_chunk.
    simpl. rewrite app_nil_r, !Nat.add_0_r. repeat split.
Qed.

(** ** Chunk size zero *)

(** C10.  With [chunk_size = 0] the first window is empty whatever the
    store holds, so the [while] condition is falsy at once: the generator
    returns without yielding anything. *)
Theorem synchronize_hosts_chunk_size_0 select_query event_producer interrupt
    fuel w rows rows' :
  select_query (queries w) = inr rows ->
  select_query (S (queries w)) = inr rows' ->
  let tr :=
    [ACount (inr (length rows));
     APrint ("Total number: " +:+ pretty (length rows));
     AChunkCount 0 0 (inr 0)] in
  synchronize_hosts select_query event_producer 0 interrupt (S fuel) w =
    (tr, next_query (next_query w), Returned tt) /\
  outcomes tr = [].
Proof.
  intros Hq Hq' tr. split; [|reflexivity].
  rewrite (synchronize_hosts_run _ _ _ _ _ _ rows Hq).
  rewrite (sweep_end _ _ _ _ _ _ (next_query w) rows' Hq'); reflexivity.
Qed.

(** ** Concurrent deletion *)


(** ** Properties of every run *)

(** A property of runs that holds of the empty run and is kept by
    sequencing holds of the whole generator once it holds of each call the
    generator makes. *)
Section Discipline.

Variable P : World -> list action -> World -> completion unit -> Prop.

Hypothesis P_nil : forall w c, P w [] w c.
Hypothesis P_seq : forall w t1 w1 t2 w2 c,
  P w t1 w1 (Returned tt) -> P w1 t2 w2 c -> P w (t1 ++ t2) w2 c.

Lemma respects_ret {A} (a : A) : respects P (mret a).
Proof. intros w tr w' c [= <- <- <-]. apply P_nil. Qed.

Lemma respects_bind {A B} (m : Gen A) (k : A -> Gen B) :
  respects P m -> (forall a, respects P (k a)) -> respects P (m ≫= k).
Proof.
  intros Hm Hk w tr w' c. unfold mbind, Gen_bind, bind.
  destruct (m w) as [[t1 w1] c1] eqn:Em. specialize (Hm _ _ _ _ Em).
  destruct c1 as [a|e|].
  - destruct (k a w1) as [[t2 w2] c2] eqn:Ek. intros [= <- <- <-].
    apply (P_seq _ _ w1); [exact Hm | exact (Hk _ _ _ _ _ Ek)].
  - intros [= <- <- <-]. exact Hm.
  - intros [= <- <- <-]. exact Hm.
Qed.

Variable select_query : nat -> exn + list Host.
Variable event_producer :
  nat -> string -> string -> Headers -> Topic -> bool -> sink_reply.
Variable chunk_size : nat.
Variable interrupt : nat -> bool.

Hypothesis P_count : respects P (count select_query).
Hypothesis P_print : forall s, respects P (print s).
Hypothesis P_chunk_count :
  forall start, respects P (chunk_count select_query start chunk_size).
Hypothesis P_chunk_read :
  forall start, respects P (chunk_read select_query start chunk_size).
Hypothesis P_sync_host : forall host, respects P (sync_host event_producer host).
Hypothesis P_poll : respects P (poll_interrupt interrupt).

Lemma respects_for_hosts hosts : respects P (for_hosts event_producer hosts).
Proof.
  induction hosts as [|host rest IH].
  - apply (respects_ret tt).
  - rewrite for_hosts_cons. apply respects_bind; [apply P_sync_host|].
    intros _. exact IH.
Qed.

Lemma respects_sweep fuel start :
  respects P (sweep select_query event_producer chunk_size interrupt fuel start).
Proof.
  revert start. induction fuel as [|fuel IH]; intros start.
  - intros w tr w' c [= <- <- <-]. apply P_nil.
  - rewrite sweep_S. apply respects_bind; [apply P_chunk_count|].
    intros n. destruct (n =? 0)%nat; [apply (respects_ret tt)|].
    apply respects_bind; [apply P_chunk_read|]. intros host_list.
    apply respects_bind; [apply respects_for_hosts|]. intros _.
    apply respects_bind; [apply P_poll|]. intros [|].
    + apply (respects_ret tt).
    + apply IH.
Qed.

Lemma respects_synchronize_hosts fuel :
  respects P (synchronize_hosts select_query event_producer chunk_size
              interrupt fuel).
Proof.
  unfold synchronize_hosts. apply respects_bind; [apply P_count|].
  intros total. apply respects_bind; [apply P_print|]. intros _.
  apply respects_sweep.
Qed.

End Discipline.

(** ** The success counter *)

Lemma counter_faithful_nil w c : counter_faithful w [] w c.
Proof. repeat split. unfold increments, count_where. simpl. lia. Qed.

Lemma counter_faithful_seq w t1 w1 t2 w2 c :
  counter_faithful w t1 w1 (Returned tt) -> counter_faithful w1 t2 w2 c ->
  counter_faithful w (t1 ++ t2) w2 c.
Proof.
  intros (H1 & H2 & H3) (K1 & K2 & K3). unfold counter_faithful.
  rewrite increments_app, sink_replies_app, outcomes_app, !count_where_app.
  lia.
Qed.

Ltac one_call :=
  intros ? ? ? ?; cbv beta delta [count chunk_count chunk_read
    poll_interrupt print emit]; simpl;
  repeat match goal with
         | |- context [match ?x with inl _ => _ | inr _ => _ end] => destruct x
         end;
  intros [= <- <- <-].

Lemma counter_faithful_sync_host event_producer host :
  respects counter_faithful (sync_host event_producer host).
Proof.
  intros w tr w' c.
  destruct (expired host) eqn:Hexp.
  - rewrite (sync_host_expired _ _ _ Hexp). intros [= <- <- <-].
    repeat split. unfold increments, count_where. simpl. lia.
  - destruct policy as [e|cfg] eqn:Hpol.
    + rewrite (sync_host_rejected _ _ _ _ Hexp Hpol). intros [= <- <- <-].
      repeat split. unfold increments, count_where. simpl. lia.
    + rewrite (sync_host_live _ _ _ _ Hexp Hpol).
      destruct (reply_at event_producer cfg (dispatches w) host);
        intros [= <- <- <-]; repeat split;
        unfold increments, count_where; simpl; lia.
Qed.

(** C2, as the code has it.  In every run the counter is incremented once
    for each dispatch from which [write_event] returned, acknowledged or
    not, and never for a dispatch that raised; this is also the number of
    outcomes yielded with [True]. *)
Theorem counter_counts_returned_dispatches select_query event_producer
    chunk_size interrupt fuel w :
  match synchronize_hosts select_query event_producer chunk_size interrupt
          fuel w with
  | (tr, w', _) =>
      increments tr = count_where returned_normally (sink_replies tr) /\
      increments tr = count_where snd (outcomes tr) /\
      synchronize_host_count w' = synchronize_host_count w + increments tr
  end.
Proof.
  destruct (synchronize_hosts _ _ _ _ fuel w) as [[tr w'] c] eqn:Hrun.
  revert Hrun.
  apply (respects_synchronize_hosts counter_faithful counter_faithful_nil
           counter_faithful_seq select_query event_producer chunk_size
           interrupt).
  - one_call; repeat split; unfold increments, count_where; simpl; lia.
  - intros s. one_call; repeat split; unfold increments, count_where; simpl; lia.
  - intros start. one_call; repeat split; unfold increments, count_where;
      simpl; lia.
  - intros start. one_call; repeat split; unfold increments, count_where;
      simpl; lia.
  - apply counter_faithful_sync_host.
  - one_call; repeat split; unfold increments, count_where; simpl; lia.
Qed.

(** ** Store failures *)

Lemma store_disciplined_nil w c : store_disciplined w [] w c.
Proof. left. constructor. Qed.

Lemma store_disciplined_seq w t1 w1 t2 w2 c :
  store_disciplined w t1 w1 (Returned tt) -> store_disciplined w1 t2 w2 c ->
  store_disciplined w (t1 ++ t2) w2 c.
Proof.
  intros [H1 | (? & ? & ? & _ & _ & [=] & _)]
         [H2 | (pre & a & e & -> & Ha & -> & Hpre)].
  - left. apply Forall_app. split; assumption.
  - right. exists (t1 ++ pre), a, e. rewrite app_assoc.
    repeat split; try assumption. apply Forall_app. split; assumption.
Qed.

Lemma store_disciplined_sync_host event_producer host :
  respects store_disciplined (sync_host event_producer host).
Proof.
  intros w tr w' c Hrun. left. revert Hrun.
  destruct (expired host) eqn:Hexp.
  - rewrite (sync_host_expired _ _ _ Hexp). intros [= <- <- <-].
    repeat constructor.
  - destruct policy as [e|cfg] eqn:Hpol.
    + rewrite (sync_host_rejected _ _ _ _ Hexp Hpol). intros [= <- <- <-].
      repeat constructor.
    + rewrite (sync_host_live _ _ _ _ Hexp Hpol).
      destruct (reply_at event_producer cfg (dispatches w) host);
        intros [= <- <- <-]; repeat constructor.
Qed.

Lemma store_disciplined_run select_query event_producer chunk_size interrupt
    fuel :
  respects store_disciplined
    (synchronize_hosts select_query event_producer chunk_size interrupt fuel).
Proof.
  apply (respects_synchronize_hosts store_disciplined store_disciplined_nil
           store_disciplined_seq).
  - one_call; [right; eexists [], _, _ | left]; repeat constructor.
  - intros s. one_call. left. repeat constructor.
  - intros start. one_call; [right; eexists [], _, _ | left];
      repeat constructor.
  - intros start. one_call; [right; eexists [], _, _ | left];
      repeat constructor.
  - apply store_disciplined_sync_host.
  - one_call. left. repeat constructor.
Qed.


(** ** A policy that is rejected *)

Lemma rejected_actions_app e l1 l2 :
  rejected_actions e (l1 ++ l2) =
    if forallb expired l1
    then rejected_actions e l1 ++ rejected_actions e l2
    else rejected_actions e l1.
Proof.
  induction l1 as [|host rest IH]; [reflexivity|]. simpl.
  destruct (expired host); simpl; [|reflexivity].
  rewrite IH. destruct (forallb expired rest); reflexivity.
Qed.

Lemma record_actions_rejected e hosts :
  record_actions (rejected_actions e hosts) = rejected_actions e hosts.
Proof.
  induction hosts as [|host rest IH]; [reflexivity|]. simpl.
  destruct (expired host); simpl; [rewrite IH|]; reflexivity.
Qed.

Lemma for_hosts_rejected event_producer e hosts w :
  policy = inl e ->
  for_hosts event_producer hosts w =
    (rejected_actions e hosts, w, rejected_completion e hosts).
Proof.
  intros Hpol. induction hosts as [|host rest IH]; [reflexivity|].
  rewrite for_hosts_cons. unfold rejected_completion. simpl.
  destruct (expired host) eqn:Hexp; simpl.
  - rewrite (bind_Returned _ _ _ _ _ _ (sync_host_expired _ _ _ Hexp)), IH.
    reflexivity.
  - apply bind_Raised, sync_host_rejected; assumption.
Qed.

Lemma sweep_rejected select_query event_producer chunk_size interrupt e hosts :
  (forall q, select_query q = inr hosts) ->
  0 < chunk_size ->
  policy = inl e ->
  (forall p, interrupt p = false) ->
  forall fuel start w,
    length (drop start hosts) < fuel ->
    exists tr w',
      sweep select_query event_producer chunk_size interrupt fuel start w =
        (tr, w', rejected_completion e (drop start hosts)) /\
      record_actions tr = rejected_actions e (drop start hosts) /\
      (drop start hosts <> [] ->
       exists rest,
         tr = AChunkCount start chunk_size
                (inr (length (window start chunk_size hosts)))
              :: AChunkRead start chunk_size
                   (inr (window start chunk_size hosts))
              :: rest).
Proof.
  intros Hstatic Hpos Hpol Hint.
  induction fuel as [|fuel IH]; intros start w Hfuel; [lia|].
  destruct (drop start hosts) as [|host rest] eqn:Hdrop.
  - rewrite (sweep_end _ _ _ _ _ _ _ hosts (Hstatic _)
               (window_nil_of_drop _ _ _ Hdrop)).
    eexists _, _. split; [reflexivity|]. split; [reflexivity|]. congruence.
  - assert (drop start hosts <> []) as Hne by (rewrite Hdrop; discriminate).
    rewrite <- Hdrop. rewrite sweep_S.
    set (chunk := window start chunk_size hosts).
    assert (chunk_count select_query start chunk_size w =
            ([AChunkCount start chunk_size (inr (length chunk))],
             next_query w, Returned (length chunk))) as Hcount.
    { unfold chunk_count. rewrite Hstatic. reflexivity. }
    rewrite (bind_Returned _ _ _ _ _ _ Hcount).
    destruct (length chunk =? 0)%nat eqn:Hlen.
    { apply Nat.eqb_eq, nil_length_inv in Hlen.
      destruct (window_cons _ _ _ Hpos Hne Hlen). }
    assert (chunk_read select_query start chunk_size (next_query w) =
            ([AChunkRead start chunk_size (inr chunk)],
             next_query (next_query w), Returned chunk)) as Hread.
    { unfold chunk_read. rewrite Hstatic. reflexivity. }
    rewrite (bind_Returned _ _ _ _ _ _ Hread).
    pose proof (for_hosts_rejected event_producer e chunk
                  (next_query (next_query w)) Hpol) as Hchunk.
    rewrite <- (window_split start chunk_size hosts). fold chunk.
    unfold rejected_completion in *. rewrite forallb_app, rejected_actions_app.
    destruct (forallb expired chunk) eqn:Hall.
    + rewrite (bind_Returned _ _ _ _ _ _ Hchunk).
      unfold mbind at 1, Gen_bind, bind, poll_interrupt. rewrite Hint.
      destruct (IH (start + chunk_size)
                  (next_poll (next_query (next_query w))))
        as (t & w2 & Hrun & Hrec & _).
      { rewrite length_drop. rewrite <- Hdrop, length_drop in Hfuel.
        assert (length (drop start hosts) <> 0) as Hlen'
          by (rewrite Hdrop; discriminate).
        rewrite length_drop in Hlen'. lia. }
      rewrite Hrun. eexists _, _. split; [reflexivity|]. split.
      * simpl. rewrite !record_actions_app, record_actions_rejected. simpl.
        rewrite Hrec. reflexivity.
      * intros _. eexists. reflexivity.
    + rewrite (bind_Raised _ _ _ _ _ _ Hchunk).
      eexists _, _. split; [reflexivity|]. split.
      * simpl. apply record_actions_rejected.
      * intros _. eexists. reflexivity.
Qed.


(** * Further properties of the sweep *)

(** ** More to read on a trace *)

(** The result of each liveness check, in order. *)
Definition liveness_results (tr : list action) : list (N * bool) :=
  omap (fun a => match a with
                 | ALiveness host_id live => Some (host_id, live)
                 | _ => None
                 end) tr.

(** The windows [(offset, limit)] of the chunk counts and of the chunk
    reads, and the answers of the interrupt, in order. *)
Definition chunk_count_windows (tr : list action) : list (nat * nat) :=
  omap (fun a => match a with
                 | AChunkCount offset limit _ => Some (offset, limit)
                 | _ => None
                 end) tr.

Definition chunk_read_windows (tr : list action) : list (nat * nat) :=
  omap (fun a => match a with
                 | AChunkRead offset limit _ => Some (offset, limit)
                 | _ => None
                 end) tr.

Definition interrupt_polls (tr : list action) : list bool :=
  omap (fun a => match a with
                 | AInterrupt stop => Some stop
                 | _ => None
                 end) tr.

Definition live_checks (tr : list action) : nat :=
  count_where (fun a => match a with ALiveness _ true => true | _ => false end)
    tr.

Definition expired_checks (tr : list action) : nat :=
  count_where (fun a => match a with ALiveness _ false => true | _ => false end)
    tr.

Definition policy_builds (tr : list action) : nat :=
  count_where (fun a => match a with AStaleness _ => true | _ => false end) tr.

Definition accepted_policy_builds (tr : list action) : nat :=
  count_where (fun a => match a with AStaleness None => true | _ => false end)
    tr.

Definition skipped_outcomes (tr : list action) : nat :=
  count_where (fun a => match a with AYield _ false => true | _ => false end)
    tr.

(** An exception raised inside the loop body: by the policy or by the
    producer. *)
Definition record_failure (a : action) : option exn :=
  match a with
  | AStaleness (Some e) => Some e
  | AWrite _ _ _ _ _ (SinkRaises e) => Some e
  | _ => None
  end.

Definition raising (failure : action -> option exn) (a : action)
    : option (completion unit) :=
  match failure a with Some e => Some (Raised e) | None => None end.

Definition interrupt_stops (a : action) : option (completion unit) :=
  match a with AInterrupt true => Some (Returned tt) | _ => None end.

(** Actions after which the generator does nothing more: [terminal a] is
    the way the run completes when [a] happens. *)
Section Terminal.

Variable terminal : action -> option (completion unit).

Definition terminal_free (tr : list action) : Prop :=
  Forall (fun a => terminal a = None) tr.

Definition ended_by (tr : list action) (c : completion unit) : Prop :=
  exists pre a, tr = pre ++ [a] /\ terminal a = Some c /\ terminal_free pre.

Definition terminal_disciplined (w : World) (tr : list action) (w' : World)
    (c : completion unit) : Prop :=
  terminal_free tr \/ ended_by tr c.

Lemma terminal_disciplined_nil w c : terminal_disciplined w [] w c.
Proof. left. constructor. Qed.

Lemma terminal_disciplined_seq w t1 w1 t2 w2 c :
  (forall a, terminal a <> Some (Returned tt)) ->
  terminal_disciplined w t1 w1 (Returned tt) ->
  terminal_disciplined w1 t2 w2 c ->
  terminal_disciplined w (t1 ++ t2) w2 c.
Proof.
  intros Hraise [H1 | (? & a1 & _ & Ha1 & _)] [H2 | (pre & a & -> & Ha & Hpre)].
  - left. apply Forall_app. split; assumption.
  - right. exists (t1 ++ pre), a. rewrite app_assoc.
    repeat split; try assumption. apply Forall_app. split; assumption.
  - destruct (Hraise a1 Ha1).
  - destruct (Hraise a1 Ha1).
Qed.

Lemma terminal_free_app_inv pre a post :
  terminal_free (pre ++ a :: post) -> terminal a = None.
Proof.
  intros H. apply Forall_app in H as [_ H]. inversion H; assumption.
Qed.

(** A terminal action is the last one, and the run ends as it says. *)
Lemma terminal_is_last tr c pre a post c0 :
  terminal_free tr \/ ended_by tr c ->
  tr = pre ++ a :: post -> terminal a = Some c0 ->
  post = [] /\ c = c0.
Proof.
  intros [Hfree | (pre' & a' & Htr' & Ha' & Hpre')] Htr Ha.
  - exfalso. rewrite Htr in Hfree.
    apply terminal_free_app_inv in Hfree. congruence.
  - rewrite Htr in Htr'. destruct post as [|b post' _] using rev_ind.
    + apply app_inj_tail in Htr' as [_ <-]. split; congruence.
    + exfalso. rewrite app_comm_cons, app_assoc in Htr'.
      apply app_inj_tail in Htr' as [<- _].
      apply terminal_free_app_inv in Hpre'. congruence.
Qed.

End Terminal.

(** ** Lemmas on the monad, continued *)

Lemma bind_inv {A B} (m : Gen A) (k : A -> Gen B) w tr w' c :
  (m ≫= k) w = (tr, w', c) ->
  exists t1 w1 c1,
    m w = (t1, w1, c1) /\
    match c1 with
    | Returned a => exists t2, k a w1 = (t2, w', c) /\ tr = t1 ++ t2
    | Raised e => tr = t1 /\ w' = w1 /\ c = Raised e
    | OutOfFuel => tr = t1 /\ w' = w1 /\ c = OutOfFuel
    end.
Proof.
  unfold mbind, Gen_bind, bind.
  destruct (m w) as [[t1 w1] [a|e|]]; intros Hrun; exists t1, w1.
  - exists (Returned a). split; [reflexivity|].
    destruct (k a w1) as [[t2 w2] c2]. injection Hrun as <- <- <-.
    exists t2. split; reflexivity.
  - exists (Raised e). injection Hrun as <- <- <-. repeat split.
  - exists OutOfFuel. injection Hrun as <- <- <-. repeat split.
Qed.

(** The runs of the loop body, case by case. *)
Lemma sync_host_cases event_producer host w :
  (expired host = true /\
   sync_host event_producer host w =
     ([ALiveness (id host) false; AYield (id host) false], w, Returned tt)) \/
  (exists e,
     sync_host event_producer host w =
       ([ALiveness (id host) true; AStaleness (Some e)], w, Raised e)) \/
  (exists event key headers e,
     sync_host event_producer host w =
       ([ALiveness (id host) true; AStaleness None;
         AWrite event key headers events true (SinkRaises e)],
        next_dispatch w, Raised e)) \/
  (exists event key headers r,
     returned_normally r = true /\
     sync_host event_producer host w =
       ([ALiveness (id host) true; AStaleness None;
         AWrite event key headers events true r; AInc; AYield (id host) true],
        counted (next_dispatch w), Returned tt)).
Proof.
  destruct (expired host) eqn:Hexp.
  - left. split; [reflexivity|]. apply sync_host_expired, Hexp.
  - right. destruct policy as [e|cfg] eqn:Hpol.
    + left. exists e. apply sync_host_rejected; assumption.
    + right. rewrite (sync_host_live _ _ _ _ Hexp Hpol). unfold dispatch.
      destruct (reply_at event_producer cfg (dispatches w) host) as [| |e].
      * right. eexists _, _, _, Acknowledged. split; reflexivity.
      * right. eexists _, _, _, FailureLogged. split; reflexivity.
      * left. eexists _, _, _, e. reflexivity.
Qed.

(** ** An exception in the loop body *)

Lemma record_failure_sync_host event_producer host :
  respects (terminal_disciplined (raising record_failure))
    (sync_host event_producer host).
Proof.
  intros w tr w' c.
  destruct (sync_host_cases event_producer host w)
    as [[_ ->] | [(e & ->) | [(ev & key & hd & e & ->)
                             | (ev & key & hd & r & Hr & ->)]]];
    intros [= <- <- <-].
  - left. repeat constructor.
  - right. exists [ALiveness (id host) true], (AStaleness (Some e)).
    repeat constructor.
  - right. exists [ALiveness (id host) true; AStaleness None],
      (AWrite ev key hd events true (SinkRaises e)).
    repeat constructor.
  - left. repeat constructor. unfold raising. simpl.
    destruct r; [reflexivity | reflexivity | discriminate].
Qed.

Lemma record_failure_run select_query event_producer chunk_size interrupt
    fuel :
  respects (terminal_disciplined (raising record_failure))
    (synchronize_hosts select_query event_producer chunk_size interrupt fuel).
Proof.
  apply (respects_synchronize_hosts _
           (terminal_disciplined_nil (raising record_failure))).
  - intros w t1 w1 t2 w2 c. apply terminal_disciplined_seq.
    intros a. unfold raising. destruct (record_failure a); discriminate.
  - one_call; left; repeat constructor.
  - intros s. one_call. left. repeat constructor.
  - intros start. one_call; left; repeat constructor.
  - intros start. one_call; left; repeat constructor.
  - apply record_failure_sync_host.
  - one_call. left. repeat constructor.
Qed.

(** X1.  In every run, an exception raised by the policy or by
    [write_event] is the last thing the generator does: the run completes
    by raising that exception, and the record being processed is neither
    counted nor yielded. *)
Theorem record_failure_aborts select_query event_producer chunk_size interrupt
    fuel w tr w' c pre a post e :
  synchronize_hosts select_query event_producer chunk_size interrupt fuel w =
    (tr, w', c) ->
  tr = pre ++ a :: post ->
  record_failure a = Some e ->
  post = [] /\ c = Raised e /\
  outcomes tr = outcomes pre /\ increments tr = increments pre.
Proof.
  intros Hrun Htr Ha.
  pose proof (record_failure_run _ _ _ _ _ _ _ _ _ Hrun) as Hd.
  assert (ending c = c) as Hc by (destruct c as [[]| |]; reflexivity).
  rewrite Hc in Hd.
  destruct (terminal_is_last (raising record_failure) tr c pre a post
              (Raised e) Hd Htr) as [-> ->].
  { unfold raising. rewrite Ha. reflexivity. }
  split; [reflexivity|]. split; [reflexivity|].
  rewrite Htr, outcomes_app, increments_app.
  destruct a as [?|?|???|???|??|[?|]|?????[| |?]| |??|?]; try discriminate;
    simpl; rewrite ?app_nil_r; unfold increments, count_where; simpl;
    split; try reflexivity; lia.
Qed.

(** ** The shape of every run of the loop *)

(** What a trace of the [while] loop started at offset [start] looks like,
    whatever the collaborators do.  [body] stands for what the [for] loop
    did over the chunk. *)
Inductive sweep_shape (chunk_size : nat)
    : nat -> list action -> completion unit -> Prop :=
| shape_out_of_fuel start : sweep_shape chunk_size start [] OutOfFuel
| shape_count_raises start e :
    sweep_shape chunk_size start [AChunkCount start chunk_size (inl e)]
      (Raised e)
| shape_end start :
    sweep_shape chunk_size start [AChunkCount start chunk_size (inr 0)]
      (Returned tt)
| shape_read_raises start n e :
    sweep_shape chunk_size start
      [AChunkCount start chunk_size (inr n);
       AChunkRead start chunk_size (inl e)] (Raised e)
| shape_body_aborts start n chunk body c :
    Forall (fun a => record_level a = true) body ->
    (exists pre a e,
       body = pre ++ [a] /\ record_failure a = Some e /\ c = Raised e) ->
    sweep_shape chunk_size start
      ([AChunkCount start chunk_size (inr n);
        AChunkRead start chunk_size (inr chunk)] ++ body) c
| shape_interrupted start n chunk body :
    Forall (fun a => record_level a = true) body ->
    sweep_shape chunk_size start
      ([AChunkCount start chunk_size (inr n);
        AChunkRead start chunk_size (inr chunk)] ++ body ++ [AInterrupt true])
      (Returned tt)
| shape_next start n chunk body rest c :
    Forall (fun a => record_level a = true) body ->
    sweep_shape chunk_size (start + chunk_size) rest c ->
    sweep_shape chunk_size start
      ([AChunkCount start chunk_size (inr n);
        AChunkRead start chunk_size (inr chunk)] ++ body ++
       [AInterrupt false] ++ rest) c.

Definition record_level_only (w : World) (tr : list action) (w' : World)
    (c : completion unit) : Prop :=
  Forall (fun a => record_level a = true) tr.

Lemma for_hosts_record_level event_producer hosts :
  respects record_level_only (for_hosts event_producer hosts).
Proof.
  apply respects_for_hosts.
  - intros w c. constructor.
  - intros w t1 w1 t2 w2 c H1 H2. apply Forall_app. split; assumption.
  - intros host w tr w' c.
    destruct (sync_host_cases event_producer host w)
      as [[_ ->] | [(e & ->) | [(ev & key & hd & e & ->)
                               | (ev & key & hd & r & Hr & ->)]]];
      intros [= <- <- <-]; repeat constructor.
Qed.

(** The [for] loop returns, or raises what the policy or the producer
    raised, as its last action. *)
Lemma for_hosts_ends event_producer hosts :
  forall w body w' c,
    for_hosts event_producer hosts w = (body, w', c) ->
    c = Returned tt \/
    exists pre a e,
      body = pre ++ [a] /\ record_failure a = Some e /\ c = Raised e.
Proof.
  induction hosts as [|host rest IH]; intros w body w' c Hrun.
  - injection Hrun as <- <- <-. left. reflexivity.
  - rewrite for_hosts_cons in Hrun.
    apply bind_inv in Hrun as (t1 & w1 & c1 & Hhost & Hrest).
    destruct (sync_host_cases event_producer host w)
      as [[_ Heq] | [(e & Heq) | [(ev & key & hd & e & Heq)
                                 | (ev & key & hd & r & Hr & Heq)]]];
      rewrite Heq in Hhost; injection Hhost as <- <- <-.
    + destruct Hrest as (t2 & Hrest & ->).
      destruct (IH _ _ _ _ Hrest) as [-> | (pre & a & e & -> & Ha & ->)];
        [left; reflexivity|].
      right. eexists (_ ++ pre), a, e. rewrite <- app_assoc.
      repeat split. exact Ha.
    + destruct Hrest as (-> & -> & ->). right.
      exists [ALiveness (id host) true], (AStaleness (Some e)), e.
      repeat split.
    + destruct Hrest as (-> & -> & ->). right.
      exists [ALiveness (id host) true; AStaleness None],
        (AWrite ev key hd events true (SinkRaises e)), e.
      repeat split.
    + destruct Hrest as (t2 & Hrest & ->).
      destruct (IH _ _ _ _ Hrest) as [-> | (pre & a & e & -> & Ha & ->)];
        [left; reflexivity|].
      right. eexists (_ ++ pre), a, e. rewrite <- app_assoc.
      repeat split. exact Ha.
Qed.

Lemma sweep_has_shape select_query event_producer chunk_size interrupt :
  forall fuel start w tr w' c,
    sweep select_query event_producer chunk_size interrupt fuel start w =
      (tr, w', c) ->
    sweep_shape chunk_size start tr c.
Proof.
  induction fuel as [|fuel IH]; intros start w tr w' c Hrun.
  - injection Hrun as <- <- <-. constructor.
  - rewrite sweep_S in Hrun.
    apply bind_inv in Hrun as (t0 & w0 & c0 & Hcount & Hrest).
    unfold chunk_count in Hcount.
    destruct (select_query (queries w)) as [e|rows];
      injection Hcount as <- <- <-.
    { destruct Hrest as (-> & -> & ->). constructor. }
    destruct Hrest as (t1 & Hrest & ->).
    destruct (length (window start chunk_size rows) =? 0)%nat eqn:Hlen.
    { apply Nat.eqb_eq in Hlen. rewrite Hlen.
      injection Hrest as <- <- <-. constructor. }
    apply bind_inv in Hrest as (t2 & w2 & c2 & Hread & Hrest).
    unfold chunk_read in Hread. simpl in Hread.
    destruct (select_query (S (queries w))) as [e|rows'];
      injection Hread as <- <- <-.
    { destruct Hrest as (-> & -> & ->). constructor. }
    destruct Hrest as (t3 & Hrest & ->).
    apply bind_inv in Hrest as (body & w3 & c3 & Hbody & Hrest).
    pose proof (for_hosts_record_level _ _ _ _ _ _ Hbody) as Hlevel.
    destruct c3 as [[]|e|].
    + destruct Hrest as (t4 & Hrest & ->).
      apply bind_inv in Hrest as (t5 & w5 & c5 & Hpoll & Hrest).
      unfold poll_interrupt in Hpoll. injection Hpoll as <- <- <-.
      destruct Hrest as (t6 & Hrest & ->).
      destruct (interrupt (polls w3)).
      * injection Hrest as <- <- <-.
        apply (shape_interrupted chunk_size start _ _ body Hlevel).
      * apply (shape_next chunk_size start _ _ body t6 c Hlevel).
        exact (IH _ _ _ _ _ Hrest).
    + destruct Hrest as (-> & -> & ->).
      apply (shape_body_aborts chunk_size start _ _ body _ Hlevel).
      destruct (for_hosts_ends _ _ _ _ _ _ Hbody) as [[=] | Hends].
      exact Hends.
    + destruct (for_hosts_ends _ _ _ _ _ _ Hbody)
        as [[=] | (? & ? & ? & _ & _ & [=])].
Qed.

(** The whole generator: the total count fails, or the count and the print
    are followed by a run of the loop from offset 0. *)
Lemma synchronize_hosts_has_shape select_query event_producer chunk_size
    interrupt fuel w tr w' c :
  synchronize_hosts select_query event_producer chunk_size interrupt fuel w =
    (tr, w', c) ->
  (exists e, tr = [ACount (inl e)] /\ c = Raised e) \/
  (exists n s rest,
     tr = [ACount (inr n); APrint s] ++ rest /\
     sweep_shape chunk_size 0 rest c).
Proof.
  unfold synchronize_hosts. intros Hrun.
  apply bind_inv in Hrun as (t0 & w0 & c0 & Hcount & Hrest).
  unfold count in Hcount.
  destruct (select_query (queries w)) as [e|rows]; injection Hcount as <- <- <-.
  { left. destruct Hrest as (-> & -> & ->). exists e. split; reflexivity. }
  right. destruct Hrest as (t1 & Hrest & ->).
  apply bind_inv in Hrest as (t2 & w2 & c2 & Hprint & Hrest).
  unfold print, emit in Hprint. injection Hprint as <- <- <-.
  destruct Hrest as (rest & Hrest & ->).
  eexists _, _, rest. split; [reflexivity|].
  exact (sweep_has_shape _ _ _ _ _ _ _ _ _ _ Hrest).
Qed.

(** ** Interruption, whatever the collaborators do *)

Lemma record_level_no_stop body :
  Forall (fun a => record_level a = true) body ->
  terminal_free interrupt_stops body.
Proof.
  intros Hbody. apply (Forall_impl _ _ _ Hbody).
  intros a Ha. destruct a; try reflexivity; discriminate.
Qed.

Lemma sweep_shape_interrupt chunk_size start tr c :
  sweep_shape chunk_size start tr c ->
  terminal_free interrupt_stops tr \/ ended_by interrupt_stops tr c.
Proof.
  induction 1 as [start|start e|start|start n e|start n chunk body c Hbody Hc
                 |start n chunk body Hbody
                 |start n chunk body rest c Hbody Hrest IH].
  - left. constructor.
  - left. repeat constructor.
  - left. repeat constructor.
  - left. repeat constructor.
  - left. apply Forall_app. split; [repeat constructor|].
    apply record_level_no_stop, Hbody.
  - right. exists ([AChunkCount start chunk_size (inr n);
                    AChunkRead start chunk_size (inr chunk)] ++ body),
      (AInterrupt true).
    split; [rewrite <- app_assoc; reflexivity|]. split; [reflexivity|].
    apply Forall_app. split; [repeat constructor|].
    apply record_level_no_stop, Hbody.
  - assert (terminal_free interrupt_stops
              ([AChunkCount start chunk_size (inr n);
                AChunkRead start chunk_size (inr chunk)] ++ body ++
               [AInterrupt false])) as Hhead.
    { apply Forall_app. split; [repeat constructor|].
      apply Forall_app. split; [|repeat constructor].
      apply record_level_no_stop, Hbody. }
    destruct IH as [Hfree | (pre & a & -> & Ha & Hpre)].
    + left. rewrite !app_assoc. apply Forall_app. split; [|exact Hfree].
      rewrite <- !app_assoc. exact Hhead.
    + right.
      exists (([AChunkCount start chunk_size (inr n);
                AChunkRead start chunk_size (inr chunk)] ++ body ++
               [AInterrupt false]) ++ pre), a.
      split; [rewrite <- !app_assoc; reflexivity|]. split; [exact Ha|].
      apply Forall_app. split; assumption.
Qed.

(** X2.  In every run, an interrupt that answers [True] is the last thing
    the generator does, and the run returns normally: no record is visited
    and no query is made after it. *)
Theorem interrupt_ends_run select_query event_producer chunk_size interrupt
    fuel w tr w' c pre post :
  synchronize_hosts select_query event_producer chunk_size interrupt fuel w =
    (tr, w', c) ->
  tr = pre ++ AInterrupt true :: post ->
  post = [] /\ c = Returned tt.
Proof.
  intros Hrun Htr.
  destruct (synchronize_hosts_has_shape _ _ _ _ _ _ _ _ _ Hrun)
    as [(e & -> & _) | (n & s & rest & Hshape & Hrest)].
  - exfalso. destruct pre as [|? [|? ?]]; discriminate.
  - apply sweep_shape_interrupt in Hrest.
    apply (terminal_is_last interrupt_stops tr c pre (AInterrupt true) post);
      [|exact Htr|reflexivity].
    rewrite Hshape. destruct Hrest as [Hfree | (pre' & a & -> & Ha & Hpre')].
    + left. apply Forall_app. split; [repeat constructor | exact Hfree].
    + right. exists ([ACount (inr n); APrint s] ++ pre'), a.
      split; [rewrite <- app_assoc; reflexivity|]. split; [exact Ha|].
      apply Forall_app. split; [repeat constructor | exact Hpre'].
Qed.

(** ** How a run ends *)

Definition collaborator_failure (a : action) : option exn :=
  match store_failure a with
  | Some e => Some e
  | None => record_failure a
  end.

Definition ends_as (chunk_size : nat) (tr : list action)
    (c : completion unit) : Prop :=
  match c with
  | Returned _ =>
      exists pre,
        (exists offset, tr = pre ++ [AChunkCount offset chunk_size (inr 0)]) \/
        tr = pre ++ [AInterrupt true]
  | Raised e =>
      exists pre a, tr = pre ++ [a] /\ collaborator_failure a = Some e
  | OutOfFuel => True
  end.

Lemma ends_as_prepend chunk_size t1 t2 c :
  ends_as chunk_size t2 c -> ends_as chunk_size (t1 ++ t2) c.
Proof.
  destruct c as [[]|e|]; simpl; [| |trivial].
  - intros (pre & [(o & ->) | ->]); exists (t1 ++ pre);
      [left; exists o | right]; rewrite app_assoc; reflexivity.
  - intros (pre & a & -> & Ha). exists (t1 ++ pre), a.
    rewrite app_assoc. split; [reflexivity | exact Ha].
Qed.

Lemma sweep_shape_ends chunk_size start tr c :
  sweep_shape chunk_size start tr c -> ends_as chunk_size tr c.
Proof.
  induction 1 as [start|start e|start|start n e|start n chunk body c Hbody Hc
                 |start n chunk body Hbody
                 |start n chunk body rest c Hbody Hrest IH].
  - exact I.
  - exists [], (AChunkCount start chunk_size (inl e)). split; reflexivity.
  - exists []. left. exists start. reflexivity.
  - exists [AChunkCount start chunk_size (inr n)],
      (AChunkRead start chunk_size (inl e)). split; reflexivity.
  - destruct Hc as (pre & a & e & -> & Ha & ->).
    apply ends_as_prepend. exists pre, a. split; [reflexivity|].
    unfold collaborator_failure.
    destruct a as [?|?|???|???|??|[?|]|?????[| |?]| |??|?]; try discriminate;
      exact Ha.
  - rewrite app_assoc. apply ends_as_prepend. exists []. right. reflexivity.
  - rewrite !app_assoc. apply ends_as_prepend. exact IH.
Qed.


(** ** The windows the loop asks for *)

Definition window_at (chunk_size start i : nat) : nat * nat :=
  (start + i * chunk_size, chunk_size).

Lemma record_level_no_window body :
  Forall (fun a => record_level a = true) body ->
  chunk_count_windows body = [] /\ chunk_read_windows body = [] /\
  interrupt_polls body = [].
Proof.
  induction 1 as [|a body Ha _ IH]; [repeat split|].
  destruct IH as (IH1 & IH2 & IH3).
  destruct a; try discriminate; repeat split; assumption.
Qed.

Lemma windows_shift chunk_size start n :
  window_at chunk_size start 0 ::
    map (window_at chunk_size (start + chunk_size)) (seq 0 n) =
  map (window_at chunk_size start) (seq 0 (S n)).
Proof.
  simpl. f_equal.
  rewrite <- seq_shift, map_map. apply map_ext. intros i.
  unfold window_at. f_equal. lia.
Qed.

Lemma sweep_shape_windows chunk_size start tr c :
  sweep_shape chunk_size start tr c ->
  exists n m,
    chunk_count_windows tr = map (window_at chunk_size start) (seq 0 n) /\
    chunk_read_windows tr = map (window_at chunk_size start) (seq 0 m) /\
    length (interrupt_polls tr) <= m /\ m <= n /\
    n <= length (interrupt_polls tr) + 1.
Proof.
  assert (forall start0, (start0, chunk_size) = window_at chunk_size start0 0)
    as Hzero by (intros; unfold window_at; f_equal; lia).
  induction 1 as [start|start e|start|start n e|start n chunk body c Hbody Hc
                 |start n chunk body Hbody
                 |start n chunk body rest c Hbody Hrest IH].
  - exists 0, 0. simpl. repeat split; lia.
  - exists 1, 0. simpl. rewrite <- Hzero. repeat split; lia.
  - exists 1, 0. simpl. rewrite <- Hzero. repeat split; lia.
  - exists 1, 1. simpl. rewrite <- Hzero. repeat split; lia.
  - destruct (record_level_no_window body Hbody) as (H1 & H2 & H3).
    exists 1, 1. unfold chunk_count_windows, chunk_read_windows,
      interrupt_polls in *.
    rewrite !omap_app, H1, H2, H3. simpl. rewrite <- Hzero.
    repeat split; lia.
  - destruct (record_level_no_window body Hbody) as (H1 & H2 & H3).
    exists 1, 1. unfold chunk_count_windows, chunk_read_windows,
      interrupt_polls in *.
    rewrite !omap_app, H1, H2, H3. simpl. rewrite <- Hzero.
    repeat split; lia.
  - destruct (record_level_no_window body Hbody) as (H1 & H2 & H3).
    destruct IH as (n' & m' & Hc' & Hr' & Hle1 & Hle2 & Hle3).
    exists (S n'), (S m'). unfold chunk_count_windows, chunk_read_windows,
      interrupt_polls in *.
    rewrite !omap_app, H1, H2, H3, Hc', Hr'. simpl omap. simpl app.
    rewrite !Hzero, !windows_shift. simpl length. repeat split; lia.
Qed.

Lemma synchronize_hosts_windows select_query event_producer chunk_size
    interrupt fuel w :
  match synchronize_hosts select_query event_producer chunk_size interrupt
          fuel w with
  | (tr, _, _) =>
      exists n m,
        chunk_count_windows tr = map (window_at chunk_size 0) (seq 0 n) /\
        chunk_read_windows tr = map (window_at chunk_size 0) (seq 0 m) /\
        length (interrupt_polls tr) <= m /\ m <= n /\
        n <= length (interrupt_polls tr) + 1
  end.
Proof.
  destruct (synchronize_hosts _ _ _ _ fuel w) as [[tr w'] c] eqn:Hrun.
  destruct (synchronize_hosts_has_shape _ _ _ _ _ _ _ _ _ Hrun)
    as [(e & -> & _) | (n & s & rest & -> & Hrest)].
  - exists 0, 0. simpl. repeat split; lia.
  - destruct (sweep_shape_windows _ _ _ _ Hrest)
      as (n' & m' & Hc' & Hr' & Hle).
    exists n', m'. unfold chunk_count_windows, chunk_read_windows,
      interrupt_polls in *.
    rewrite !omap_app. simpl. repeat split; tauto.
Qed.

(** X3.  In every run the chunk counts are asked at the offsets 0,
    [chunk_size], [2 * chunk_size], ... with the limit [chunk_size], in this
    order, and the chunk reads go through the same windows: each chunk is
    read at the window it was counted at, and at most the last count has no
    read. *)
Theorem chunk_windows_advance select_query event_producer chunk_size interrupt
    fuel w :
  match synchronize_hosts select_query event_producer chunk_size interrupt
          fuel w with
  | (tr, _, _) =>
      exists n m,
        chunk_count_windows tr =
          map (fun i => (i * chunk_size, chunk_size)) (seq 0 n) /\
        chunk_read_windows tr =
          map (fun i => (i * chunk_size, chunk_size)) (seq 0 m) /\
        m <= n <= m + 1
  end.
Proof.
  pose proof (synchronize_hosts_windows select_query event_producer chunk_size
                interrupt fuel w) as H.
  destruct (synchronize_hosts _ _ _ _ fuel w) as [[tr w'] c].
  destruct H as (n & m & Hc & Hr & Hp1 & Hle & Hp2).
  exists n, m. rewrite Hc, Hr. repeat split; try lia.
Qed.

(** X4.  In every run the interrupt is polled only after a chunk was read,
    and at most once per chunk read: the polls number as many as the chunk
    reads, or one less. *)
Theorem interrupt_polled_once_per_chunk select_query event_producer chunk_size
    interrupt fuel w :
  match synchronize_hosts select_query event_producer chunk_size interrupt
          fuel w with
  | (tr, _, _) =>
      length (interrupt_polls tr) <= length (chunk_read_windows tr) /\
      length (chunk_read_windows tr) <= length (interrupt_polls tr) + 1
  end.
Proof.
  pose proof (synchronize_hosts_windows select_query event_producer chunk_size
                interrupt fuel w) as H.
  destruct (synchronize_hosts _ _ _ _ fuel w) as [[tr w'] c].
  destruct H as (n & m & Hc & Hr & Hp1 & Hle & Hp2).
  rewrite Hr, length_map, length_seq. lia.
Qed.

(** ** What happens once per record *)

Definition accounted (w : World) (tr : list action) (w' : World)
    (c : completion unit) : Prop :=
  policy_builds tr = live_checks tr /\
  length (sink_replies tr) = accepted_policy_builds tr /\
  skipped_outcomes tr = expired_checks tr /\
  dispatches w' = dispatches w + length (sink_replies tr).

Ltac count_actions :=
  unfold accounted, policy_builds, live_checks, accepted_policy_builds,
    skipped_outcomes, expired_checks, sink_replies, count_where; simpl.

Lemma accounted_seq w t1 w1 t2 w2 c :
  accounted w t1 w1 (Returned tt) -> accounted w1 t2 w2 c ->
  accounted w (t1 ++ t2) w2 c.
Proof.
  intros (H1 & H2 & H3 & H4) (K1 & K2 & K3 & K4).
  unfold accounted, policy_builds, live_checks, accepted_policy_builds,
    skipped_outcomes, expired_checks in *.
  rewrite sink_replies_app, length_app, !count_where_app. lia.
Qed.


(** ** Outcomes against visits *)

Definition yielded_as_checked (w : World) (tr : list action) (w' : World)
    (c : completion unit) : Prop :=
  liveness_results tr = outcomes tr \/
  exists host_id e,
    liveness_results tr = outcomes tr ++ [(host_id, true)] /\ c = Raised e.

Lemma yielded_as_checked_seq w t1 w1 t2 w2 c :
  yielded_as_checked w t1 w1 (Returned tt) ->
  yielded_as_checked w1 t2 w2 c ->
  yielded_as_checked w (t1 ++ t2) w2 c.
Proof.
  unfold yielded_as_checked, liveness_results.
  intros [H1 | (? & ? & _ & [=])] [H2 | (i & e & H2 & ->)];
    rewrite omap_app, outcomes_app.
  - left. unfold outcomes in *. congruence.
  - right. exists i, e. split; [|reflexivity].
    rewrite <- app_assoc. unfold outcomes in *. congruence.
Qed.


(** ** Dispatching no faster than the consumer asks *)

(** Whether a dispatch is still waiting for its [yield] after [tr], given
    whether one was waiting before. *)
Fixpoint owed_after (owed : bool) (tr : list action) : bool :=
  match tr with
  | [] => owed
  | AWrite _ _ _ _ _ _ :: rest => owed_after true rest
  | AYield _ _ :: rest => owed_after false rest
  | _ :: rest => owed_after owed rest
  end.

(** No dispatch happens while another one waits for its [yield]. *)
Fixpoint one_at_a_time (owed : bool) (tr : list action) : bool :=
  match tr with
  | [] => true
  | AWrite _ _ _ _ _ _ :: rest => negb owed && one_at_a_time true rest
  | AYield _ _ :: rest => one_at_a_time false rest
  | _ :: rest => one_at_a_time owed rest
  end.

Definition paced (w : World) (tr : list action) (w' : World)
    (c : completion unit) : Prop :=
  one_at_a_time false tr = true /\
  (c = Returned tt -> owed_after false tr = false).

Lemma owed_after_app owed t1 t2 :
  owed_after owed (t1 ++ t2) = owed_after (owed_after owed t1) t2.
Proof.
  revert owed. induction t1 as [|a t1 IH]; intros owed; [reflexivity|].
  destruct a; simpl; apply IH.
Qed.

Lemma one_at_a_time_app owed t1 t2 :
  one_at_a_time owed (t1 ++ t2) =
    one_at_a_time owed t1 && one_at_a_time (owed_after owed t1) t2.
Proof.
  revert owed. induction t1 as [|a t1 IH]; intros owed; [reflexivity|].
  destruct a; simpl; rewrite ?IH; try reflexivity.
  destruct owed; reflexivity.
Qed.

Lemma paced_seq w t1 w1 t2 w2 c :
  paced w t1 w1 (Returned tt) -> paced w1 t2 w2 c -> paced w (t1 ++ t2) w2 c.
Proof.
  intros [H1 K1] [H2 K2]. specialize (K1 eq_refl). split.
  - rewrite one_at_a_time_app, H1, K1. exact H2.
  - intros Hc. rewrite owed_after_app, K1. exact (K2 Hc).
Qed.

Lemma paced_performed tr :
  forall owed n,
    one_at_a_time owed tr = true ->
    length (sink_replies (performed n tr)) <= n - (if owed then 1 else 0).
Proof.
  induction tr as [|a tr IH]; intros owed [|n] Hok; simpl; try lia.
  destruct a; simpl in *;
    try (specialize (IH owed (S n) Hok); simpl in IH; exact IH).
  - apply andb_prop in Hok as [Howed Hok]. destruct owed; [discriminate|].
    specialize (IH true (S n) Hok). simpl in IH. lia.
  - specialize (IH false n Hok). simpl in IH. destruct owed; lia.
Qed.

(** X7.  In every run, once the consumer has asked for [n] outcomes at most
    [n] events have been dispatched: a consumer that stops asking stops the
    dispatching. *)
Theorem dispatches_follow_requests select_query event_producer chunk_size
    interrupt fuel w n :
  match synchronize_hosts select_query event_producer chunk_size interrupt
          fuel w with
  | (tr, _, _) => length (sink_replies (performed n tr)) <= n
  end.
Proof.
  destruct (synchronize_hosts _ _ _ _ fuel w) as [[tr w'] c] eqn:Hrun.
  assert (paced w tr w' (ending c)) as [Hok _].
  { revert Hrun. apply (respects_synchronize_hosts paced).
    - intros ? ?. split; reflexivity.
    - apply paced_seq.
    - one_call; split; reflexivity.
    - intros s. one_call. split; reflexivity.
    - intros start. one_call; split; reflexivity.
    - intros start. one_call; split; reflexivity.
    - intros host w0 tr0 w0' c0.
      destruct (sync_host_cases event_producer host w0)
        as [[_ ->] | [(e & ->) | [(ev & key & hd & e & ->)
                                 | (ev & key & hd & r & Hr & ->)]]];
        intros [= <- <- <-]; split; try reflexivity; discriminate.
    - one_call. split; reflexivity. }
  pose proof (paced_performed tr false n Hok) as Hle. simpl in Hle. lia.
Qed.

(** ** The cost of a sweep over a static store *)

(** The number of chunks of [chunk_size] records that [n] records fill. *)
Definition chunks_needed (n chunk_size : nat) : nat :=
  (n + chunk_size - 1) / chunk_size.

Lemma chunks_needed_step n chunk_size :
  0 < chunk_size -> 0 < n ->
  chunks_needed n chunk_size = S (chunks_needed (n - chunk_size) chunk_size).
Proof.
  intros Hpos Hn. unfold chunks_needed.
  destruct (le_lt_dec chunk_size n) as [Hle|Hlt].
  - replace (n + chunk_size - 1)
      with ((n - chunk_size + chunk_size - 1) + 1 * chunk_size) by lia.
    rewrite Nat.div_add by lia. lia.
  - replace (n - chunk_size) with 0 by lia.
    replace (n + chunk_size - 1) with ((n - 1) + 1 * chunk_size) by lia.
    rewrite Nat.div_add by lia.
    rewrite !Nat.div_small by lia. reflexivity.
Qed.

Lemma chunk_actions_record_level event_producer cfg hosts d :
  Forall (fun a => record_level a = true)
    (chunk_actions event_producer cfg d hosts).
Proof.
  revert d. induction hosts as [|host rest IH]; intros d; [constructor|].
  simpl. apply Forall_app. split; [|apply IH].
  unfold host_actions. destruct (expired host); repeat constructor.
Qed.

Lemma sweep_static_cost select_query event_producer chunk_size interrupt cfg
    hosts :
  (forall q, select_query q = inr hosts) ->
  0 < chunk_size ->
  sink_returns event_producer -> policy = inr cfg ->
  (forall p, interrupt p = false) ->
  forall fuel start w,
    length (drop start hosts) < fuel ->
    let k := chunks_needed (length (drop start hosts)) chunk_size in
    exists tr w',
      sweep select_query event_producer chunk_size interrupt fuel start w =
        (tr, w', Returned tt) /\
      length (chunk_count_windows tr) = k + 1 /\
      length (chunk_read_windows tr) = k /\
      length (interrupt_polls tr) = k.
Proof.
  intros Hstatic Hpos Hsink Hpol Hint.
  induction fuel as [|fuel IH]; intros start w Hfuel; [lia|]. cbv zeta.
  destruct (drop start hosts) as [|host rest] eqn:Hdrop.
  - rewrite (sweep_end _ _ _ _ _ _ _ hosts (Hstatic _)
               (window_nil_of_drop _ _ _ Hdrop)).
    eexists _, _. split; [reflexivity|].
    unfold chunks_needed. simpl length.
    rewrite Nat.div_small by lia. repeat split.
  - assert (drop start hosts <> []) as Hne by (rewrite Hdrop; discriminate).
    pose proof (sweep_step select_query event_producer chunk_size interrupt
                  cfg fuel start w hosts hosts Hsink Hpol (Hstatic _)
                  (window_cons _ _ _ Hpos Hne) (Hstatic _)) as Hstep.
    cbv zeta in Hstep. rewrite Hint in Hstep.
    set (chunk := window start chunk_size hosts) in *.
    set (w1 := next_poll (advance (live_count chunk)
                            (next_query (next_query w)))) in *.
    rewrite <- Hdrop in *.
    assert (length (drop start hosts) <> 0) as Hlen
      by (rewrite Hdrop; discriminate).
    destruct (IH (start + chunk_size) w1) as (t & w2 & Hrun & Hc & Hr & Hp).
    { rewrite length_drop in *. lia. }
    rewrite Hrun in Hstep. rewrite Hstep. eexists _, _.
    split; [reflexivity|].
    destruct (record_level_no_window _
                (chunk_actions_record_level event_producer cfg chunk
                   (dispatches w))) as (H1 & H2 & H3).
    rewrite (chunks_needed_step (length (drop start hosts)) chunk_size)
      by lia.
    replace (length (drop start hosts) - chunk_size)
      with (length (drop (start + chunk_size) hosts))
      by (rewrite !length_drop; lia).
    unfold chunk_count_windows, chunk_read_windows, interrupt_polls in *.
    rewrite !omap_app, H1, H2, H3, !length_app. simpl.
    rewrite Hc, Hr, Hp. repeat split; lia.
Qed.

(** X8.  Over a static store of N records, with a chunk size C > 0 and no
    interruption, the sweep makes ceil(N / C) chunk reads, one chunk count
    more, and as many interrupt polls as chunk reads. *)
Theorem static_sweep_cost select_query event_producer chunk_size interrupt
    cfg hosts fuel w :
  (forall q, select_query q = inr hosts) ->
  0 < chunk_size ->
  sink_returns event_producer -> policy = inr cfg ->
  (forall p, interrupt p = false) ->
  length hosts < fuel ->
  exists tr w',
    synchronize_hosts select_query event_producer chunk_size interrupt fuel w =
      (tr, w', Returned tt) /\
    length (chunk_read_windows tr) = chunks_needed (length hosts) chunk_size /\
    length (chunk_count_windows tr) =
      chunks_needed (length hosts) chunk_size + 1 /\
    length (interrupt_polls tr) = chunks_needed (length hosts) chunk_size.
Proof.
  intros Hstatic Hpos Hsink Hpol Hint Hfuel.
  destruct (sweep_static_cost select_query event_producer chunk_size interrupt
              cfg hosts Hstatic Hpos Hsink Hpol Hint fuel 0 (next_query w)
              Hfuel) as (t & w' & Hrun & Hc & Hr & Hp).
  rewrite (synchronize_hosts_run _ _ _ _ _ _ hosts (Hstatic _)), Hrun.
  eexists _, _. split; [reflexivity|].
  unfold chunk_count_windows, chunk_read_windows, interrupt_polls in *.
  rewrite !omap_app. simpl. repeat split; assumption.
Qed.

(** ** The chunk size does not change what is done to the records *)

(** X9.  Over a static store and without interruption, two sweeps with
    different positive chunk sizes perform the same per-record actions in
    the same order (the same checks, dispatches, increments and outcomes)
    and leave the same counter; only the store queries and the polls
    differ. *)
Theorem chunk_size_is_transparent select_query event_producer interrupt cfg
    hosts chunk_size chunk_size' fuel w :
  (forall q, select_query q = inr hosts) ->
  0 < chunk_size -> 0 < chunk_size' ->
  sink_returns event_producer -> policy = inr cfg ->
  (forall p, interrupt p = false) ->
  length hosts < fuel ->
  exists tr w1 tr' w1',
    synchronize_hosts select_query event_producer chunk_size interrupt fuel w =
      (tr, w1, Returned tt) /\
    synchronize_hosts select_query event_producer chunk_size' interrupt fuel w =
      (tr', w1', Returned tt) /\
    record_actions tr = record_actions tr' /\
    synchronize_host_count w1 = synchronize_host_count w1'.
Proof.
  intros Hstatic Hpos Hpos' Hsink Hpol Hint Hfuel.
  pose proof (store_available_static _ _ Hstatic) as Hstore.
  destruct (sweep_run select_query event_producer chunk_size interrupt cfg
              Hstore Hsink Hpol fuel 0 (next_query w))
    as (t & w1 & Hrun & Hrec & Hcnt).
  destruct (sweep_run select_query event_producer chunk_size' interrupt cfg
              Hstore Hsink Hpol fuel 0 (next_query w))
    as (t' & w1' & Hrun' & Hrec' & Hcnt').
  cbv zeta in *.
  rewrite (swept_static _ _ _ hosts Hstatic Hpos Hint) in Hrun, Hrec, Hcnt
    by exact Hfuel.
  rewrite (swept_static _ _ _ hosts Hstatic Hpos' Hint) in Hrun', Hrec', Hcnt'
    by exact Hfuel.
  rewrite !(synchronize_hosts_run _ _ _ _ _ _ hosts (Hstatic _)), Hrun, Hrun'.
  eexists _, _, _, _. split; [reflexivity|]. split; [reflexivity|].
  rewrite !record_actions_app, Hrec, Hrec', Hcnt, Hcnt'. split; reflexivity.
Qed.

(** ** An empty store *)

(** X10.  When the store holds no record at the first chunk count, the
    generator returns at once, whatever the chunk size: nothing is read,
    nothing is yielded, and the producer and the interrupt are never
    called. *)
Theorem empty_store_ends_at_once select_query event_producer chunk_size
    interrupt fuel w rows :
  select_query (queries w) = inr rows ->
  select_query (S (queries w)) = inr [] ->
  synchronize_hosts select_query event_producer chunk_size interrupt
      (S fuel) w =
    ([ACount (inr (length rows));
      APrint ("Total number: " +:+ pretty (length rows));
      AChunkCount 0 chunk_size (inr 0)],
     next_query (next_query w), Returned tt).
Proof.
  intros Hq Hq'.
  rewrite (synchronize_hosts_run _ _ _ _ _ _ rows Hq).
  rewrite (sweep_end _ _ _ _ _ _ (next_query w) [] Hq'); [reflexivity|].
  unfold window. rewrite drop_nil. apply take_nil.
Qed.

(** ** A chunk in two parts *)

Lemma bind_assoc_at {A B C} (m : Gen A) (k : A -> Gen B) (h : B -> Gen C) w :
  ((m ≫= k) ≫= h) w = (m ≫= fun a => k a ≫= h) w.
Proof.
  unfold mbind, Gen_bind, bind.
  destruct (m w) as [[t1 w1] [a|e|]]; try reflexivity.
  destruct (k a w1) as [[t2 w2] [b|e|]]; try reflexivity.
  destruct (h b w2) as [[t3 w3] c]. rewrite app_assoc. reflexivity.
Qed.

Lemma bind_ext_at {A B} (m : Gen A) (k k' : A -> Gen B) w :
  (forall a w1, k a w1 = k' a w1) -> (m ≫= k) w = (m ≫= k') w.
Proof.
  intros Hk. unfold mbind, Gen_bind, bind.
  destruct (m w) as [[t1 w1] [a|e|]]; try reflexivity.
  rewrite Hk. reflexivity.
Qed.

Lemma for_hosts_app_bind event_producer l1 l2 w :
  for_hosts event_producer (l1 ++ l2) w =
    (for_hosts event_producer l1 ≫= fun _ => for_hosts event_producer l2) w.
Proof.
  revert w. induction l1 as [|host rest IH]; intros w.
  - simpl. unfold mbind, Gen_bind, bind, mret, Gen_ret, ret. simpl.
    destruct (for_hosts event_producer l2 w) as [[t w'] c]. reflexivity.
  - simpl app. rewrite !for_hosts_cons, bind_assoc_at.
    apply bind_ext_at. intros _ w1. apply IH.
Qed.


(** ** A chunk that vanishes between its count and its read *)

(** X13.  The loop counts a window and then reads it with a second query.
    When the count finds records and the read finds none, nothing is
    yielded for that window and nothing is raised: the interrupt is polled
    and, unless it answers [True], the loop goes on at the next offset. *)
Theorem vanished_chunk_is_passed select_query event_producer chunk_size
    interrupt fuel start w rows rows' :
  select_query (queries w) = inr rows ->
  window start chunk_size rows <> [] ->
  select_query (S (queries w)) = inr rows' ->
  window start chunk_size rows' = [] ->
  let head :=
    [AChunkCount start chunk_size (inr (length (window start chunk_size rows)));
     AChunkRead start chunk_size (inr []);
     AInterrupt (interrupt (polls w))] in
  let w1 := next_poll (next_query (next_query w)) in
  sweep select_query event_producer chunk_size interrupt (S fuel) start w =
    if interrupt (polls w) then (head, w1, Returned tt)
    else
      match sweep select_query event_producer chunk_size interrupt fuel
              (start + chunk_size) w1 with
      | (t, w2, c) => (head ++ t, w2, c)
      end.
Proof.
  intros Hq Hwin Hq' Hwin' head w1. rewrite sweep_S.
  assert (chunk_count select_query start chunk_size w =
          ([AChunkCount start chunk_size
              (inr (length (window start chunk_size rows)))],
           next_query w, Returned (length (window start chunk_size rows))))
    as Hcount.
  { unfold chunk_count. rewrite Hq. reflexivity. }
  rewrite (bind_Returned _ _ _ _ _ _ Hcount).
  destruct (length (window start chunk_size rows) =? 0)%nat eqn:Hlen.
  { apply Nat.eqb_eq, nil_length_inv in Hlen. contradiction. }
  assert (chunk_read select_query start chunk_size (next_query w) =
          ([AChunkRead start chunk_size (inr [])],
           next_query (next_query w), Returned [])) as Hread.
  { unfold chunk_read. simpl. rewrite Hq', Hwin'. reflexivity. }
  rewrite (bind_Returned _ _ _ _ _ _ Hread).
  assert (for_hosts event_producer [] (next_query (next_query w)) =
          ([], next_query (next_query w), Returned tt)) as Hbody
    by reflexivity.
  rewrite (bind_Returned _ _ _ _ _ _ Hbody).
  assert (poll_interrupt interrupt (next_query (next_query w)) =
          ([AInterrupt (interrupt (polls w))], w1,
           Returned (interrupt (polls w)))) as Hpoll by reflexivity.
  rewrite (bind_Returned _ _ _ _ _ _ Hpoll).
  subst head. destruct (interrupt (polls w)).
  - reflexivity.
  - destruct (sweep _ _ _ _ fuel _ w1) as [[t w2] c]. reflexivity.
Qed.

(** ** The [insights_id] of the message headers *)

Lemma sync_host_headers event_producer host w cfg :
  expired host = false -> policy = inr cfg ->
  exists event key r rest,
    (sync_host event_producer host w).1.1 =
      [ALiveness (id host) true; AStaleness None;
       AWrite event key
         (message_headers updated
            (canonical_facts host !! "insights_id"%string))
         events true r] ++ rest.
Proof.
  intros Hlive Hpol. rewrite (sync_host_live _ _ _ _ Hlive Hpol).
  unfold dispatch.
  destruct (reply_at event_producer cfg (dispatches w) host) eqn:Hr;
    eexists _, _, _, _; simpl; reflexivity.
Qed.

(** X14.  The headers of a live record's event are built from the
    [insights_id] of its canonical facts: from [None] when the facts have no
    such key, which is no error, and from the value stored under that key
    whatever the other facts are. *)
Theorem insights_id_header event_producer host_id facts v w cfg :
  policy = inr cfg ->
  (facts !! "insights_id"%string = None ->
   exists event key r rest,
     (sync_host event_producer (mk_Host host_id facts false) w).1.1 =
       [ALiveness host_id true; AStaleness None;
        AWrite event key (message_headers updated None) events true r] ++
       rest) /\
  (exists event key r rest,
     (sync_host event_producer
        (mk_Host host_id (<["insights_id"%string := v]> facts) false) w).1.1 =
       [ALiveness host_id true; AStaleness None;
        AWrite event key (message_headers updated (Some v)) events true r] ++
       rest).
Proof.
  intros Hpol. split.
  - intros Hnone.
    destruct (sync_host_headers event_producer (mk_Host host_id facts false)
                w cfg eq_refl Hpol) as (ev & key & r & rest & Hrun).
    cbn [canonical_facts id] in Hrun. rewrite Hnone in Hrun.
    exists ev, key, r, rest. exact Hrun.
  - destruct (sync_host_headers event_producer
                (mk_Host host_id (<["insights_id"%string := v]> facts) false)
                w cfg eq_refl Hpol) as (ev & key & r & rest & Hrun).
    cbn [canonical_facts id] in Hrun. rewrite lookup_insert_eq in Hrun.
    exists ev, key, r, rest. exact Hrun.
Qed.

End Sweep.

Arguments ACount {Headers} r.
Arguments APrint {Headers} s.
Arguments AChunkCount {Headers} offset limit r.
Arguments AChunkRead {Headers} offset limit r.
Arguments ALiveness {Headers} host_id live.
Arguments AStaleness {Headers} r.
Arguments AWrite {Headers} event key headers topic wait r.
Arguments AInc {Headers}.
Arguments AYield {Headers} host_id sync_up.
Arguments AInterrupt {Headers} stop.
Arguments outcomes {Headers} tr.
Arguments visited {Headers} tr.
Arguments sink_replies {Headers} tr.
Arguments increments {Headers} tr.
Arguments record_actions {Headers} tr.
Arguments performed {Headers} pulls tr.
Arguments rejected_at_construction {Headers} tr.
Arguments incremented_per_acknowledgment {Headers} tr.
Arguments liveness_results {Headers} tr.
Arguments chunk_count_windows {Headers} tr.
Arguments chunk_read_windows {Headers} tr.
Arguments interrupt_polls {Headers} tr.
Arguments record_failure {Headers} a.

(** ** The staleness timestamps of the module *)

(** C6.  With the module's constants, [_staleness_timestamps()] succeeds
    and the timestamp set it stands for at a decision time [T] is
    [T + 7 days] and [T + 14 days], to the microsecond; these are the
    timestamps handed to the serializer for the event of a live record. *)
Theorem staleness_timestamps_7_14 (Serialized Headers : Type)
    (EGRESS_HOST_FIELDS : list string)
    (serialize_host : Host -> culling.Timestamps -> list string -> Serialized)
    (build_event : EventType -> Serialized -> string)
    (message_headers : EventType -> option string -> Headers)
    (str : Serialized -> string)
    (event_producer :
       nat -> string -> string -> Headers -> Topic -> bool -> sink_reply)
    (host : Host) (T : Z) (w : World) :
  expired host = false ->
  exists ts r,
    _staleness_timestamps culling._Config culling.Timestamps Headers
      culling.CullingConfig culling.mk_Timestamps w =
      ([AStaleness None], w, Returned ts) /\
    culling.staleness_at ts T =
      {| culling.stale_warning_at := (T + microseconds_of_days 7)%Z;
         culling.culled_at := (T + microseconds_of_days 14)%Z |} /\
    In (AWrite
          (build_event updated (serialize_host host ts EGRESS_HOST_FIELDS))
          (str (serialize_host host ts EGRESS_HOST_FIELDS))
          (message_headers updated
             (canonical_facts host !! "insights_id"%string))
          events true r)
       (sync_host culling._Config culling.Timestamps Serialized Headers
          culling.CullingConfig culling.mk_Timestamps EGRESS_HOST_FIELDS
          serialize_host build_event message_headers str event_producer
          host w).1.1.
Proof.
  intros Hlive.
  pose proof (sync_host_live culling._Config culling.Timestamps Serialized
                Headers culling.CullingConfig culling.mk_Timestamps
                EGRESS_HOST_FIELDS serialize_host build_event message_headers
                str event_producer host w _ Hlive eq_refl) as Hrun.
  eexists _, _. split; [reflexivity|]. split.
  - unfold culling.staleness_at, microseconds_of_days. simpl. f_equal; lia.
  - rewrite Hrun. unfold dispatch, serialized.
    destruct (reply_at _ _ _ _ _ _ _ _ _ _ _ _ _) eqn:Hr; simpl;
      right; right; left; rewrite <- Hr; reflexivity.
Qed.

(** ** Scenarios *)

(** The module's functions over the collaborators of the examples. *)
Definition scenario_run
    (policy : timedelta -> timedelta -> exn + culling._Config) :=
  synchronize_hosts culling._Config culling.Timestamps string (option string)
    policy culling.mk_Timestamps Scenario.egress_fields
    Scenario.plain_serialize Scenario.plain_event Scenario.plain_headers
    (fun s => s).

Definition scenario_sync_host :=
  sync_host culling._Config culling.Timestamps string (option string)
    culling.CullingConfig culling.mk_Timestamps Scenario.egress_fields
    Scenario.plain_serialize Scenario.plain_event Scenario.plain_headers
    (fun s => s).

Definition scenario_for_hosts :=
  for_hosts culling._Config culling.Timestamps string (option string)
    culling.CullingConfig culling.mk_Timestamps Scenario.egress_fields
    Scenario.plain_serialize Scenario.plain_event Scenario.plain_headers
    (fun s => s).

Definition scenario_chunk_actions :=
  chunk_actions culling._Config culling.Timestamps string (option string)
    culling.mk_Timestamps Scenario.egress_fields
    Scenario.plain_serialize Scenario.plain_event Scenario.plain_headers
    (fun s => s).

(** What has happened when the store fails at its query number 3. *)
Definition before_the_failure : list (action (option string)) :=
  [ACount (inr 5); APrint "Total number: 5";
   AChunkCount 0 2 (inr 2);
   AChunkRead 0 2 (inr [Scenario.registered 1 "6f1e"; Scenario.live 2]);
   ALiveness 1 true; AStaleness None;
   AWrite "updated host 1" "host 1" (Some "6f1e"%string) events true
     Acknowledged;
   AInc; AYield 1 true;
   ALiveness 2 true; AStaleness None;
   AWrite "updated host 2" "host 2" None events true Acknowledged;
   AInc; AYield 2 true;
   AInterrupt false].

(** The end-to-end scenario of the specification: five records, chunks of
    two, the third record deleted concurrently. *)
Example five_hosts_by_two :
  scenario_run culling.CullingConfig (Scenario.static Scenario.five_hosts)
    Scenario.acknowledging 2 Scenario.never 10 world0 =
  ([ACount (inr 5); APrint "Total number: 5";
    AChunkCount 0 2 (inr 2);
    AChunkRead 0 2 (inr [Scenario.registered 1 "6f1e"; Scenario.live 2]);
    ALiveness 1 true; AStaleness None;
    AWrite "updated host 1" "host 1" (Some "6f1e"%string) events true Acknowledged;
    AInc; AYield 1 true;
    ALiveness 2 true; AStaleness None;
    AWrite "updated host 2" "host 2" None events true Acknowledged;
    AInc; AYield 2 true;
    AInterrupt false;
    AChunkCount 2 2 (inr 2);
    AChunkRead 2 2 (inr [Scenario.gone 3; Scenario.live 4]);
    ALiveness 3 false; AYield 3 false;
    ALiveness 4 true; AStaleness None;
    AWrite "updated host 4" "host 4" None events true Acknowledged;
    AInc; AYield 4 true;
    AInterrupt false;
    AChunkCount 4 2 (inr 1);
    AChunkRead 4 2 (inr [Scenario.live 5]);
    ALiveness 5 true; AStaleness None;
    AWrite "updated host 5" "host 5" None events true Acknowledged;
    AInc; AYield 5 true;
    AInterrupt false;
    AChunkCount 6 2 (inr 0)],
   mk_World 8 4 3 4, Returned tt).
Proof. vm_compute. reflexivity. Qed.

(** The relations of N to C other than "N is not a multiple of C". *)
Example no_host :
  scenario_run culling.CullingConfig (Scenario.static []) Scenario.acknowledging
    2 Scenario.never 1 world0 =
  ([ACount (inr 0); APrint "Total number: 0"; AChunkCount 0 2 (inr 0)],
   mk_World 2 0 0 0, Returned tt).
Proof. vm_compute. reflexivity. Qed.

Example one_host_by_two :
  outcomes
    (scenario_run culling.CullingConfig (Scenario.static [Scenario.live 7])
       Scenario.acknowledging 2 Scenario.never 2 world0).1.1 =
  [(7%N, true)].
Proof. vm_compute. reflexivity. Qed.

Example four_hosts_by_two :
  outcomes
    (scenario_run culling.CullingConfig
       (Scenario.static (take 4 Scenario.five_hosts))
       Scenario.acknowledging 2 Scenario.never 3 world0).1.1 =
  [(1%N, true); (2%N, true); (3%N, false); (4%N, true)].
Proof. vm_compute. reflexivity. Qed.

(** The limitation the specification accepts: when the selection changes
    between two chunk reads a record is skipped.  Here record 1 is deleted
    after the first chunk, and record 3 is never visited. *)
Example shrinking_store_skips_a_record :
  outcomes
    (scenario_run culling.CullingConfig
       (Scenario.shrinking Scenario.five_hosts)
       Scenario.acknowledging 2 Scenario.never 10 world0).1.1 =
  [(1%N, true); (2%N, true); (4%N, true); (5%N, true)].
Proof. vm_compute. reflexivity. Qed.

(** ** The theorems at work *)

Lemma synchronize_hosts_complete_witness :
  exists tr w',
    scenario_run culling.CullingConfig (Scenario.static Scenario.five_hosts)
      Scenario.acknowledging 2 Scenario.never 6 world0 = (tr, w', Returned tt) /\
    outcomes tr =
      [(1%N, true); (2%N, true); (3%N, false); (4%N, true); (5%N, true)] /\
    visited tr = [1%N; 2%N; 3%N; 4%N; 5%N].
Proof.
  unfold scenario_run, scenario_sync_host, scenario_for_hosts,
    scenario_chunk_actions.
  apply synchronize_hosts_complete
    with (cfg := Scenario.the_policy) (hosts := Scenario.five_hosts);
    [ intros; reflexivity | lia | intros ? ? ? ? ? ?; reflexivity
    | reflexivity | intros; reflexivity | simpl; lia ].
Defined.


Lemma synchronize_hosts_interrupted_witness :
  exists tr w',
    scenario_run culling.CullingConfig (Scenario.static Scenario.five_hosts)
      Scenario.acknowledging 2 (Scenario.from_poll 1) 3 world0 =
      (tr, w', Returned tt) /\
    outcomes tr = [(1%N, true); (2%N, true); (3%N, false); (4%N, true)] /\
    visited tr = [1%N; 2%N; 3%N; 4%N].
Proof.
  unfold scenario_run.
  apply synchronize_hosts_interrupted
    with (cfg := Scenario.the_policy) (k := 1);
    [ intros q; reflexivity | intros ? ? ? ? ? ?; reflexivity | reflexivity
    | intros [|j] Hj; [reflexivity | lia]
    | reflexivity
    | simpl; repeat split; discriminate
    | lia ].
Defined.

Lemma synchronize_hosts_first_chunk_witness :
  scenario_run culling.CullingConfig (Scenario.static Scenario.five_hosts)
    Scenario.acknowledging 2 Scenario.always 1 world0 =
    ([ACount (inr 5); APrint "Total number: 5";
      AChunkCount 0 2 (inr 2);
      AChunkRead 0 2 (inr [Scenario.registered 1 "6f1e"; Scenario.live 2])] ++
     scenario_chunk_actions Scenario.acknowledging Scenario.the_policy 0
       [Scenario.registered 1 "6f1e"; Scenario.live 2] ++
     [AInterrupt true],
     mk_World 3 2 1 2, Returned tt).
Proof.
  unfold scenario_run, scenario_chunk_actions.
  apply (synchronize_hosts_first_chunk _ _ _ _ culling.CullingConfig _ _ _ _ _ _
           (Scenario.static Scenario.five_hosts) Scenario.acknowledging 2
           Scenario.always Scenario.the_policy 0 world0
           Scenario.five_hosts Scenario.five_hosts Scenario.five_hosts);
    [ reflexivity | reflexivity | reflexivity | discriminate | lia
    | intros ? ? ? ? ? ?; reflexivity | reflexivity | intros; reflexivity ].
Defined.

Lemma staleness_timestamps_7_14_witness :
  exists ts r,
    _staleness_timestamps culling._Config culling.Timestamps (option string)
      culling.CullingConfig culling.mk_Timestamps world0 =
      ([AStaleness None], world0, Returned ts) /\
    culling.staleness_at ts 1600000000000000 =
      {| culling.stale_warning_at := 1600604800000000;
         culling.culled_at := 1601209600000000 |} /\
    In (AWrite
          (Scenario.plain_event updated
             (Scenario.plain_serialize (Scenario.live 1) ts
                Scenario.egress_fields))
          (Scenario.plain_serialize (Scenario.live 1) ts
             Scenario.egress_fields)
          (Scenario.plain_headers updated
             (canonical_facts (Scenario.live 1) !! "insights_id"%string))
          events true r)
       (scenario_sync_host Scenario.acknowledging (Scenario.live 1)
          world0).1.1.
Proof.
  unfold scenario_sync_host.
  apply (staleness_timestamps_7_14 string (option string)
           Scenario.egress_fields Scenario.plain_serialize
           Scenario.plain_event Scenario.plain_headers (fun s => s)
           Scenario.acknowledging (Scenario.live 1) 1600000000000000 world0).
  reflexivity.
Defined.

Lemma synchronize_hosts_chunk_size_0_witness :
  scenario_run culling.CullingConfig (Scenario.static Scenario.five_hosts)
    Scenario.acknowledging 0 Scenario.never 1 world0 =
    ([ACount (inr 5); APrint "Total number: 5"; AChunkCount 0 0 (inr 0)],
     mk_World 2 0 0 0, Returned tt).
Proof.
  unfold scenario_run, scenario_sync_host, scenario_for_hosts,
    scenario_chunk_actions.
  apply (synchronize_hosts_chunk_size_0 _ _ _ _ culling.CullingConfig _ _ _ _ _ _
           (Scenario.static Scenario.five_hosts) Scenario.acknowledging
           Scenario.never 0 world0 Scenario.five_hosts Scenario.five_hosts);
    reflexivity.
Defined.




(** ** Where the code departs from the specification *)

(** C2 fails: a delivery that the producer logs as failed, without raising,
    is counted although nothing was acknowledged. *)
Lemma failed_delivery_is_counted :
  exists tr w',
    scenario_run culling.CullingConfig (Scenario.static [Scenario.live 1])
      Scenario.logging_failures 1 Scenario.never 2 world0 = (tr, w', Returned tt) /\
    sink_replies tr = [FailureLogged] /\
    increments tr = 1 /\
    synchronize_host_count w' = 1 /\
    ~ incremented_per_acknowledgment tr.
Proof.
  eexists _, _. split; [vm_compute; reflexivity|].
  repeat split. vm_compute. discriminate.
Qed.


(** ** Further scenarios *)

Module Cases.

(** A producer that raises at its dispatch number [n]. *)
Definition raising_at (n : nat) : Scenario.sink :=
  fun d _ _ _ _ _ =>
    if (d =? n)%nat then SinkRaises (Exn "KafkaTimeoutError") else Acknowledged.

(** A store whose records are all deleted after its query number 1, that
    is between the first chunk count and the first chunk read. *)
Definition vanishing (hosts : list Host) (q : nat) : exn + list Host :=
  if (q <=? 1)%nat then inr hosts else inr [].

End Cases.

Definition scenario_sweep :=
  sweep culling._Config culling.Timestamps string (option string)
    culling.CullingConfig culling.mk_Timestamps Scenario.egress_fields
    Scenario.plain_serialize Scenario.plain_event Scenario.plain_headers
    (fun s => s).

(** What has happened when the producer raises at its dispatch number 1. *)
Definition before_the_raise : list (action (option string)) :=
  [ACount (inr 5); APrint "Total number: 5";
   AChunkCount 0 2 (inr 2);
   AChunkRead 0 2 (inr [Scenario.registered 1 "6f1e"; Scenario.live 2]);
   ALiveness 1 true; AStaleness None;
   AWrite "updated host 1" "host 1" (Some "6f1e"%string) events true
     Acknowledged;
   AInc; AYield 1 true;
   ALiveness 2 true; AStaleness None].

(** What has happened when the interrupt is polled for the first time. *)
Definition before_the_poll : list (action (option string)) :=
  before_the_raise ++
  [AWrite "updated host 2" "host 2" None events true Acknowledged;
   AInc; AYield 2 true].

Definition the_raising_dispatch : action (option string) :=
  AWrite "updated host 2" "host 2" None events true
    (SinkRaises (Exn "KafkaTimeoutError")).

Lemma record_failure_aborts_witness :
  scenario_run culling.CullingConfig (Scenario.static Scenario.five_hosts)
    (Cases.raising_at 1) 2 Scenario.never 10 world0 =
    (before_the_raise ++ [the_raising_dispatch],
     mk_World 3 2 0 1, Raised (Exn "KafkaTimeoutError")) /\
  ([] = @nil (action (option string)) /\
   Raised (Exn "KafkaTimeoutError") =
     Raised (A := unit) (Exn "KafkaTimeoutError") /\
   outcomes (before_the_raise ++ [the_raising_dispatch]) =
     outcomes before_the_raise /\
   increments (before_the_raise ++ [the_raising_dispatch]) =
     increments before_the_raise).
Proof.
  assert (scenario_run culling.CullingConfig
            (Scenario.static Scenario.five_hosts) (Cases.raising_at 1) 2
            Scenario.never 10 world0 =
          (before_the_raise ++ [the_raising_dispatch],
           mk_World 3 2 0 1, Raised (Exn "KafkaTimeoutError"))) as Hrun
    by (vm_compute; reflexivity).
  split; [exact Hrun|].
  unfold scenario_run in Hrun.
  eapply record_failure_aborts; [exact Hrun | reflexivity | reflexivity].
Defined.

Lemma interrupt_ends_run_witness :
  scenario_run culling.CullingConfig (Scenario.static Scenario.five_hosts)
    Scenario.acknowledging 2 Scenario.always 10 world0 =
    (before_the_poll ++ [AInterrupt true],
     mk_World 3 2 1 2, Returned tt) /\
  ([] = @nil (action (option string)) /\
   Returned tt = Returned (A := unit) tt).
Proof.
  assert (scenario_run culling.CullingConfig
            (Scenario.static Scenario.five_hosts) Scenario.acknowledging 2
            Scenario.always 10 world0 =
          (before_the_poll ++ [AInterrupt true],
           mk_World 3 2 1 2, Returned tt)) as Hrun
    by (vm_compute; reflexivity).
  split; [exact Hrun|].
  unfold scenario_run in Hrun.
  eapply interrupt_ends_run; [exact Hrun | reflexivity].
Defined.

Lemma static_sweep_cost_witness :
  exists tr w',
    scenario_run culling.CullingConfig (Scenario.static Scenario.five_hosts)
      Scenario.acknowledging 2 Scenario.never 6 world0 =
      (tr, w', Returned tt) /\
    length (chunk_read_windows tr) = 3 /\
    length (chunk_count_windows tr) = 4 /\
    length (interrupt_polls tr) = 3.
Proof.
  unfold scenario_run.
  apply static_sweep_cost
    with (cfg := Scenario.the_policy) (hosts := Scenario.five_hosts);
    [ intros; reflexivity | lia | intros ? ? ? ? ? ?; reflexivity
    | reflexivity | intros; reflexivity | simpl; lia ].
Defined.

Lemma chunk_size_is_transparent_witness :
  exists tr w1 tr' w1',
    scenario_run culling.CullingConfig (Scenario.static Scenario.five_hosts)
      Scenario.acknowledging 2 Scenario.never 6 world0 =
      (tr, w1, Returned tt) /\
    scenario_run culling.CullingConfig (Scenario.static Scenario.five_hosts)
      Scenario.acknowledging 3 Scenario.never 6 world0 =
      (tr', w1', Returned tt) /\
    record_actions tr = record_actions tr' /\
    synchronize_host_count w1 = synchronize_host_count w1'.
Proof.
  unfold scenario_run.
  apply chunk_size_is_transparent
    with (cfg := Scenario.the_policy) (hosts := Scenario.five_hosts);
    [ intros; reflexivity | lia | lia | intros ? ? ? ? ? ?; reflexivity
    | reflexivity | intros; reflexivity | simpl; lia ].
Defined.

Lemma empty_store_ends_at_once_witness :
  scenario_run culling.CullingConfig (Scenario.static [])
    (Cases.raising_at 0) 50 Scenario.always 1 world0 =
    ([ACount (inr 0); APrint "Total number: 0"; AChunkCount 0 50 (inr 0)],
     mk_World 2 0 0 0, Returned tt).
Proof.
  unfold scenario_run.
  apply (empty_store_ends_at_once _ _ _ _ culling.CullingConfig _ _ _ _ _ _
           (Scenario.static []) (Cases.raising_at 0) 50 Scenario.always 0
           world0 []);
    reflexivity.
Defined.

Lemma vanished_chunk_is_passed_witness :
  scenario_sweep (Cases.vanishing Scenario.five_hosts) Scenario.acknowledging 2
    Scenario.never 2 0 (mk_World 1 0 0 0) =
    ([AChunkCount 0 2 (inr 2); AChunkRead 0 2 (inr []); AInterrupt false;
      AChunkCount 2 2 (inr 0)],
     mk_World 4 0 1 0, Returned tt).
Proof.
  unfold scenario_sweep.
  rewrite (vanished_chunk_is_passed _ _ _ _ culling.CullingConfig _ _ _ _ _ _
             (Cases.vanishing Scenario.five_hosts) Scenario.acknowledging 2
             Scenario.never 1 0 (mk_World 1 0 0 0)
             Scenario.five_hosts []);
    [ reflexivity | reflexivity | discriminate | reflexivity | reflexivity ].
Defined.

Lemma insights_id_header_witness :
  ((∅ : gmap string string) !! "insights_id"%string = None ->
   exists event key r rest,
     (scenario_sync_host Scenario.acknowledging (mk_Host 9 ∅ false)
        world0).1.1 =
       [ALiveness 9 true; AStaleness None;
        AWrite event key (Scenario.plain_headers updated None) events true r]
       ++ rest) /\
  (exists event key r rest,
     (scenario_sync_host Scenario.acknowledging
        (mk_Host 9 (<["insights_id"%string := "6f1e"%string]> ∅) false)
        world0).1.1 =
       [ALiveness 9 true; AStaleness None;
        AWrite event key (Scenario.plain_headers updated (Some "6f1e"%string))
          events true r] ++ rest).
Proof.
  unfold scenario_sync_host.
  apply insights_id_header with (cfg := Scenario.the_policy). reflexivity.
Defined.
